(** * strict_output: structured output from a text-generation provider

    A shallow embedding of [src/lib/gpt.ts].  The file has one exported
    function, [strict_output], which builds a prompt, calls the provider,
    cleans the reply, parses it as JSON, validates each record against the
    caller's [OutputFormat] and retries on failure.

    Conventions of the embedding:
    - a JavaScript string is the list of its UTF-16 code units ([jstring]);
    - a JavaScript value is a tree ([value]); numbers are kept abstract;
    - the built-ins of the JavaScript runtime that the function calls
      ([JSON.parse], [JSON.stringify], property access on arrays and
      primitives) are the fields of the class [Runtime];
    - the provider is an oracle indexed by the attempt number;
    - a thrown exception is the left summand of [throws]. *)

From Stdlib Require Import String Ascii NArith ZArith Bool Lia DecimalString List.
Import ListNotations.

Local Open Scope N_scope.
Local Open Scope list_scope.

(** ** JavaScript strings *)

Module JsString.

Definition code_unit : Type := N.
Definition jstring : Type := list code_unit.

(** An ASCII literal as a JavaScript string. *)
Definition js (s : string) : jstring :=
  map N_of_ascii (list_ascii_of_string s).

Definition LF : jstring := [10].
Definition DQUOTE : code_unit := 34.
Definition QUOTE : code_unit := 39.
Definition COMMA : code_unit := 44.
Definition LT : code_unit := 60.
Definition GT : code_unit := 62.
Definition LBRACKET : code_unit := 91.
Definition RBRACKET : code_unit := 93.
Definition BACKTICK : code_unit := 96.
Definition LBRACE : code_unit := 123.
Definition RBRACE : code_unit := 125.
(** U+2013, the dash of the prompt text. *)
Definition EN_DASH : jstring := [8211].
(** U+26A0 U+FE0F, the warning sign of the prompt text. *)
Definition WARNING_SIGN : jstring := [9888; 65039].

Fixpoint eqb (s t : jstring) : bool :=
  match s, t with
  | [], [] => true
  | c :: s', d :: t' => (c =? d) && eqb s' t'
  | _, _ => false
  end.

(** [s.startsWith(p)] *)
Fixpoint starts_with (p s : jstring) : bool :=
  match p, s with
  | [], _ => true
  | c :: p', d :: s' => (c =? d) && starts_with p' s'
  | _ :: _, [] => false
  end.

(** [s.includes(needle)] *)
Fixpoint includes (needle s : jstring) : bool :=
  starts_with needle s ||
  match s with
  | [] => false
  | _ :: s' => includes needle s'
  end.

(** [parts.join(sep)] *)
Fixpoint join (sep : jstring) (parts : list jstring) : jstring :=
  match parts with
  | [] => []
  | [p] => p
  | p :: rest => p ++ sep ++ join sep rest
  end.

(** LineTerminator of ECMAScript: the code units that [.] does not match. *)
Definition is_line_terminator (c : code_unit) : bool :=
  (c =? 10) || (c =? 13) || (c =? 8232) || (c =? 8233).

(** WhiteSpace and LineTerminator of ECMAScript: what [\s] matches and
    what [trim] removes. *)
Definition is_white_space (c : code_unit) : bool :=
  ((9 <=? c) && (c <=? 13)) || (c =? 32) || (c =? 160) || (c =? 5760) ||
  ((8192 <=? c) && (c <=? 8202)) || (c =? 8232) || (c =? 8233) ||
  (c =? 8239) || (c =? 8287) || (c =? 12288) || (c =? 65279).

Fixpoint trim_start (s : jstring) : jstring :=
  match s with
  | c :: s' => if is_white_space c then trim_start s' else s
  | [] => []
  end.

Definition trim_end (s : jstring) : jstring := rev (trim_start (rev s)).

(** [s.trim()] *)
Definition trim (s : jstring) : jstring := trim_end (trim_start s).

(** [s.replace(re, ...)] for a global regular expression [re]: the text is
    scanned from the left; where [re] matches, the match is replaced and
    the scan resumes after it; elsewhere the code unit is copied.
    [match_at s] is the match of [re] anchored at the head of [s]: the
    number of code units it covers (at least one) and its replacement.
    [skip] counts the code units of the current match still to be dropped. *)
Section Replace.
Variable match_at : jstring -> option (nat * jstring).

Fixpoint replace_from (skip : nat) (s : jstring) : jstring :=
  match s with
  | [] => []
  | c :: rest =>
      match skip with
      | S k => replace_from k rest
      | O =>
          match match_at s with
          | Some (n, replacement) => replacement ++ replace_from (pred n) rest
          | None => c :: replace_from 0 rest
          end
      end
  end.

Definition replace_all (s : jstring) : jstring := replace_from 0 s.
End Replace.

End JsString.
Import JsString.

(** ** Cleaning the provider's reply (gpt.ts, lines 59-67) *)

Module Sanitize.

(** The regular expression [/```json|```/] anchored at the head of [s]. *)
Definition match_fence (s : jstring) : option (nat * jstring) :=
  if starts_with (js "```json") s then Some (7%nat, [])
  else if starts_with (js "```") s then Some (3%nat, [])
  else None.

(** The regular expression that matches one single quote (code unit 39),
    anchored at the head of [s]; the replacement is one double quote
    (code unit 34). *)
Definition match_quote (s : jstring) : option (nat * jstring) :=
  match s with
  | c :: _ => if c =? QUOTE then Some (1%nat, [DQUOTE]) else None
  | [] => None
  end.

Definition is_closer (c : code_unit) : bool := (c =? RBRACE) || (c =? RBRACKET).

(** The regular expression [/,\s*([}\]])/] anchored at the head of [s],
    with the replacement [$1].  [\s*] is greedy, and giving back white
    space never helps: the code unit after it must be a closer. *)
Definition match_trailing_comma (s : jstring) : option (nat * jstring) :=
  match s with
  | c :: rest =>
      if c =? COMMA then
        match trim_start rest with
        | d :: _ =>
            if is_closer d
            then Some (S (S (length rest - length (trim_start rest))), [d])
            else None
        | [] => None
        end
      else None
  | [] => None
  end.

(** Line 59: every match of [/```json|```/g] is replaced by the empty
    string, and the result is trimmed. *)
Definition strip_fences (res : jstring) : jstring :=
  trim (replace_all match_fence res).

(** Line 60: every single quote becomes a double quote. *)
Definition replace_quotes (res : jstring) : jstring :=
  replace_all match_quote res.

(** Line 61: every match of [/,\s*([}\]])/g] is replaced by its group
    [$1], the closer. *)
Definition remove_trailing_commas (res : jstring) : jstring :=
  replace_all match_trailing_comma res.

(** The longest prefix of [s] that ends with [closer], if [closer] occurs. *)
Fixpoint up_to_last (closer : code_unit) (s : jstring) : option jstring :=
  match s with
  | [] => None
  | c :: rest =>
      match up_to_last closer rest with
      | Some body => Some (c :: body)
      | None => if c =? closer then Some [c] else None
      end
  end.

(** [res.match(/\{[\s\S]*\}|\[[\s\S]*\]/)]: the leftmost position where
    one of the alternatives matches; [[\s\S]*] is greedy, so the match
    runs to the last closer of the same kind in the text. *)
Fixpoint json_match (s : jstring) : option jstring :=
  match s with
  | [] => None
  | c :: rest =>
      if c =? LBRACE then
        match up_to_last RBRACE rest with
        | Some body => Some (c :: body)
        | None => json_match rest
        end
      else if c =? LBRACKET then
        match up_to_last RBRACKET rest with
        | Some body => Some (c :: body)
        | None => json_match rest
        end
      else json_match rest
  end.

(** The two kinds of bracket of the extraction, opener and closer. *)
Definition brackets : list (code_unit * code_unit) :=
  [(LBRACE, RBRACE); (LBRACKET, RBRACKET)].

(** No opener of [s] has a closer of its kind after it. *)
Definition no_span (s : jstring) : Prop :=
  forall p o q c, s = p ++ o :: q -> In (o, c) brackets -> ~ In c q.

(** Lines 59-61: the three clean-up replacements. *)
Definition clean_up (res : jstring) : jstring :=
  remove_trailing_commas (replace_quotes (strip_fences res)).

End Sanitize.
Import Sanitize.

(** A literal written with single quotes where the text has double
    quotes. *)
Definition jq (s : string) : jstring :=
  map (fun c => if c =? QUOTE then DQUOTE else c) (js s).

(** ** JavaScript values and the runtime *)

Module Js.

#[local] Set Warnings "-register-all".

(** The values the function handles: what [JSON.parse] builds, [undefined]
    (read from an empty array), and [VNative], a member that an object
    inherits from [Object.prototype]. *)
Inductive value (number : Type) : Type :=
| VUndefined
| VNull
| VBool (b : bool)
| VNum (n : number)
| VStr (s : jstring)
| VArr (elems : list (value number))
| VObj (props : list (jstring * value number))
| VNative (name : jstring).

Arguments VUndefined {number}.
Arguments VNull {number}.
Arguments VBool {number} b.
Arguments VStr {number} s.
Arguments VNum {number} n.
Arguments VArr {number} elems.
Arguments VObj {number} props.
Arguments VNative {number} name.

(** The built-ins of the runtime.  A left summand is the message of the
    exception the built-in throws.  The fields [exotic_] give property
    access on items that are not plain objects (arrays and primitives),
    where the answer depends on the engine: [key in item], [item[key]],
    [item[key] = v] and [Object.values(item)]. *)
Class Runtime : Type := {
  number : Type;
  JSON_parse : jstring -> jstring + value number;
  JSON_stringify : value number -> jstring;
  exotic_in : jstring -> value number -> jstring + bool;
  exotic_get : jstring -> value number -> value number;
  exotic_set : jstring -> value number -> value number -> jstring + value number;
  exotic_values : value number -> jstring + list (value number)
}.

Abbreviation val := (value number).

(** The exceptions of one attempt. *)
Inductive error {R : Runtime} : Type :=
| ProviderCallError (message : jstring)
| NoJsonFoundError
| JsonParseError (message : jstring)
| SchemaValidationError (key : jstring) (item : val)
| TypeError (message : jstring).

Definition throws {R : Runtime} (A : Type) : Type := (error + A)%type.
Definition ret {R : Runtime} {A : Type} (a : A) : throws A := inr a.
Definition throw {R : Runtime} {A : Type} (e : error) : throws A := inl e.
Definition bind {R : Runtime} {A B : Type} (c : throws A) (k : A -> throws B) : throws B :=
  match c with
  | inl e => inl e
  | inr a => k a
  end.

(** A built-in that throws a [TypeError]. *)
Definition native {R : Runtime} {A : Type} (c : jstring + A) : throws A :=
  match c with
  | inl message => throw (TypeError message)
  | inr a => ret a
  end.

Declare Scope throws_scope.
Delimit Scope throws_scope with throws.
Notation "x <- c ;; k" := (bind c (fun x => k))
  (at level 61, c at next level, right associativity) : throws_scope.

Section Objects.
Context {R : Runtime}.

(** The own properties of a plain object, in enumeration order. *)
Fixpoint own_get (key : jstring) (props : list (jstring * val)) : option val :=
  match props with
  | [] => None
  | (k, v) :: rest => if eqb k key then Some v else own_get key rest
  end.

(** Assignment to a data property: in place when the key is an own
    property, a new last property otherwise. *)
Fixpoint own_set (key : jstring) (v : val) (props : list (jstring * val))
  : list (jstring * val) :=
  match props with
  | [] => [(key, v)]
  | (k, x) :: rest =>
      if eqb k key then (k, v) :: rest else (k, x) :: own_set key v rest
  end.

Definition own (key : jstring) (props : list (jstring * val)) : bool :=
  match own_get key props with
  | Some _ => true
  | None => false
  end.

(** The properties of [Object.prototype] (ECMAScript with its Annex B);
    every object that [JSON.parse] builds inherits them. *)
Definition Object_prototype : list jstring :=
  map js ["constructor"; "__defineGetter__"; "__defineSetter__";
          "hasOwnProperty"; "__lookupGetter__"; "__lookupSetter__";
          "isPrototypeOf"; "propertyIsEnumerable"; "toString"; "valueOf";
          "__proto__"; "toLocaleString"]%string.

Definition inherited (key : jstring) : bool :=
  existsb (eqb key) Object_prototype.

(** [key in item] for a plain object: an own property, or one of the
    inherited ones. *)
Definition has_property (key : jstring) (props : list (jstring * val)) : bool :=
  own key props || inherited key.

(** [key in item]; throws a [TypeError] on a primitive. *)
Definition key_in (key : jstring) (item : val) : throws bool :=
  match item with
  | VObj props => ret (has_property key props)
  | _ => native (exotic_in key item)
  end.

(** [item[key]] *)
Definition get (key : jstring) (item : val) : val :=
  match item with
  | VObj props =>
      match own_get key props with
      | Some v => v
      | None => if inherited key then VNative key else VUndefined
      end
  | _ => exotic_get key item
  end.

(** [item[key] = v].  On a plain object without an own [__proto__], the
    inherited setter of that name ignores a value that is not an object;
    any other key becomes or stays an own data property. *)
Definition set (key : jstring) (v : val) (item : val) : throws val :=
  match item with
  | VObj props =>
      if negb (own key props) && eqb key (js "__proto__")
      then ret item
      else ret (VObj (own_set key v props))
  | _ => native (exotic_set key v item)
  end.

(** [Object.values(item)] *)
Definition Object_values (item : val) : throws (list val) :=
  match item with
  | VObj props => ret (map snd props)
  | _ => native (exotic_values item)
  end.

(** [Array.isArray(v)] *)
Definition Array_isArray (v : val) : bool :=
  match v with
  | VArr _ => true
  | _ => false
  end.

(** [v[0]] for an array [v]. *)
Definition first_element (v : val) : val :=
  match v with
  | VArr (x :: _) => x
  | _ => VUndefined
  end.

(** [options.includes(v)] for an array of strings [options]. *)
Definition Array_includes (options : list jstring) (v : val) : bool :=
  match v with
  | VStr s => existsb (eqb s) options
  | _ => false
  end.

(** [e.message] *)
Definition message (e : error) : jstring :=
  match e with
  | ProviderCallError m => m
  | NoJsonFoundError => js "No valid JSON object found."
  | JsonParseError m => m
  | SchemaValidationError key item =>
      js "Missing key '" ++ key ++ js "' in item: " ++ JSON_stringify item
  | TypeError m => m
  end.
End Objects.

End Js.
Import Js.
Local Open Scope throws_scope.

(** ** strict_output (gpt.ts, lines 7-120) *)

Module Gpt.

(** [OutputFormat]: the own properties of the object in enumeration
    order, each a description or a list of allowed values. *)
Definition OutputFormat : Type := list (jstring * (jstring + list jstring)).

(** The result of a call: the resolved value of the promise, or the
    message of the exception the call rejects with. *)
Inductive outcome {R : Runtime} : Type :=
| Returned (outputs : list val)
| Thrown (message : jstring).

Section StrictOutput.
Context {R : Runtime}.

(** [generateContent(prompt)] followed by [response.text()], on the given
    model: the reply of the [i]-th call of this request, or the message
    of the exception.  The provider is free to answer each call
    differently. *)
Variable provider : nat -> jstring -> jstring -> jstring + jstring.

(** The parameters of [strict_output].  [temperature] and [verbose] are
    not among them: the first is never read, the second only selects
    console output. *)
Variable system_prompt : jstring.
Variable user_prompt : jstring + list jstring.
Variable output_format : OutputFormat.
Variable default_category : jstring.
Variable output_value_only : bool.
Variable model : jstring.
Variable num_tries : Z.

(** [output_format] as a value, for [JSON.stringify]. *)
Definition format_value : val :=
  VObj (map (fun entry : jstring * (jstring + list jstring) =>
               (fst entry,
                match snd entry with
                | inl description => VStr description
                | inr options => VArr (map (fun o => VStr o) options)
                end)) output_format).

(** Line 23 *)
Definition list_input : bool :=
  match user_prompt with
  | inr _ => true
  | inl _ => false
  end.

(** [/.*?>/] anchored at the head of [s]: a [>] reached without
    crossing a line terminator. *)
Fixpoint reaches_gt (s : jstring) : bool :=
  match s with
  | [] => false
  | c :: rest =>
      (c =? GT) || (negb (is_line_terminator c) && reaches_gt rest)
  end.

(** [/<.*?>/.test(s)] *)
Fixpoint has_placeholder (s : jstring) : bool :=
  match s with
  | [] => false
  | c :: rest => ((c =? LT) && reaches_gt rest) || has_placeholder rest
  end.

(** Line 24 *)
Definition dynamic_elements : bool :=
  has_placeholder (JSON_stringify format_value).

(** Lines 30-42 *)
Definition format_instructions : jstring :=
  LF ++ LF ++ js "ONLY return a valid JSON object following this shape: "
  ++ JSON_stringify format_value
  ++ js "." ++ LF ++ js "Do not wrap the JSON inside code blocks."
  ++ LF ++ js "Do not use single quotes."
  ++ LF ++ js "Avoid trailing commas."
  ++ LF ++ js "Return ONLY raw valid JSON with NO explanations, NO markdown, and NO comments."
  ++ LF
  ++ (if list_input
      then LF ++ js "Return an array of JSON objects " ++ EN_DASH
           ++ js " one for each user input."
      else [])
  ++ (if dynamic_elements
      then LF ++ js "Any key or value wrapped in <...> must be replaced dynamically with contextually accurate content."
      else [])
  ++ LF ++ LF ++ WARNING_SIGN
  ++ js " Output MUST be directly parsable by JavaScript's JSON.parse() "
  ++ EN_DASH ++ js " no explanation, no markdown formatting, no extra comments.".

(** Line 44 *)
Definition build_prompt (error_msg : jstring) : jstring :=
  system_prompt ++ format_instructions ++ error_msg
  ++ LF ++ LF ++ js "INPUT:" ++ LF
  ++ match user_prompt with
     | inr items => join LF items
     | inl text => text
     end.

(** Lines 59-67: clean up, then extract the JSON block. *)
Definition extract_json (res : jstring) : throws jstring :=
  match json_match (clean_up res) with
  | None => throw NoJsonFoundError
  | Some jsonMatch => ret jsonMatch
  end.

(** Lines 87-101: one key of [output_format] on one item. *)
Definition validate_key (key : jstring) (format : jstring + list jstring)
    (item : val) : throws val :=
  present <- key_in key item ;;
  if negb present then
    if negb (includes [LT] key)
    then throw (SchemaValidationError key item)
    else ret item
  else
    match format with
    | inl _ => ret item
    | inr options =>
        item <- (if Array_isArray (get key item)
                 then set key (first_element (get key item)) item
                 else ret item) ;;
        if negb (Array_includes options (get key item))
           && negb (eqb default_category [])
        then set key (VStr default_category) item
        else ret item
    end.

(** Lines 86-102: the loop over the keys of [output_format]. *)
Fixpoint validate_keys (format : OutputFormat) (item : val) : throws val :=
  match format with
  | [] => ret item
  | (key, f) :: rest =>
      item <- validate_key key f item ;;
      validate_keys rest item
  end.

(** Lines 105-106: the value that the loop variable is rebound to. *)
Definition values_only (item : val) : throws val :=
  values <- Object_values item ;;
  ret (match values with
       | [v] => v
       | _ => VArr values
       end).

(** Lines 85-108: the body of the loop over [outputs].  The keys are
    validated on the object itself, which the array [outputs] holds.
    Line 106 assigns to the loop variable [item], not to the array: the
    value it computes is dropped when the iteration ends. *)
Definition validate_item (item : val) : throws val :=
  element <- validate_keys output_format item ;;
  _ <- (if output_value_only then values_only element else ret element) ;;
  ret element.

Fixpoint validate_outputs (outputs : list val) : throws (list val) :=
  match outputs with
  | [] => ret []
  | item :: rest =>
      element <- validate_item item ;;
      elements <- validate_outputs rest ;;
      ret (element :: elements)
  end.

(** Line 82 *)
Definition as_outputs (parsed : val) : list val :=
  match parsed with
  | VArr elems => elems
  | _ => [parsed]
  end.

(** Lines 47-110: the body of [try], the [i]-th attempt. *)
Definition attempt (i : nat) (prompt : jstring) : throws (list val) :=
  text <- match provider i model prompt with
          | inl m => throw (ProviderCallError m)
          | inr text => ret text
          end ;;
  jsonMatch <- extract_json (trim text) ;;
  parsed <- match JSON_parse jsonMatch with
            | inl m => throw (JsonParseError m)
            | inr parsed => ret parsed
            end ;;
  validate_outputs (as_outputs parsed).

(** Line 115 *)
Definition feedback (e : error) : jstring :=
  LF ++ LF ++ js "[PREVIOUS ATTEMPT FAILED: " ++ message e ++ js "]".

(** Line 119 *)
Definition exhausted : jstring :=
  js "All attempts failed to produce valid structured output.".

(** Lines 29-119: the loop with [remaining] iterations left, at
    attempt [i], with the current [error_msg].  The second component is
    the list of the prompts sent to the provider, in order. *)
Fixpoint attempts (remaining i : nat) (error_msg : jstring)
  : outcome * list jstring :=
  match remaining with
  | O => (Thrown exhausted, [])
  | S remaining' =>
      let prompt := build_prompt error_msg in
      match attempt i prompt with
      | inr outputs => (Returned outputs, [prompt])
      | inl e =>
          let (result, prompts) := attempts remaining' (S i) (feedback e) in
          (result, prompt :: prompts)
      end
  end.

(** [i < num_tries] holds for [i = 0, 1, ...] exactly [num_tries] times,
    and never when [num_tries] is zero or negative. *)
Definition strict_output : outcome * list jstring :=
  attempts (Z.to_nat num_tries) 0 [].
End StrictOutput.

End Gpt.
Import Gpt.

(** ** A reference runtime

    An instance of [Runtime] on which the function can be run: numbers
    are integers, [JSON.parse] reads the JSON grammar without fractions
    and exponents, and arrays used as items answer for their indices and
    their length.  The theorems below hold for every runtime; this one
    evaluates the function on concrete replies. *)

Module Reference.

Definition json : Type := value Z.

Definition is_json_space (c : code_unit) : bool :=
  (c =? 32) || (c =? 9) || (c =? 10) || (c =? 13).

Fixpoint skip_space (s : jstring) : jstring :=
  match s with
  | c :: rest => if is_json_space c then skip_space rest else s
  | [] => []
  end.

Definition is_digit (c : code_unit) : bool := (48 <=? c) && (c <=? 57).

Definition hex_digit (c : code_unit) : option N :=
  if (48 <=? c) && (c <=? 57) then Some (c - 48)
  else if (97 <=? c) && (c <=? 102) then Some (c - 87)
  else if (65 <=? c) && (c <=? 70) then Some (c - 55)
  else None.

(** The characters of a string literal after its opening quote, and the
    text after its closing quote. *)
Fixpoint parse_chars (s : jstring) : option (jstring * jstring) :=
  match s with
  | [] => None
  | c :: rest =>
      if c =? DQUOTE then Some ([], rest)
      else if c <? 32 then None
      else if c =? 92 then
        match rest with
        | e :: rest' =>
            let simple (u : code_unit) :=
              match parse_chars rest' with
              | Some (t, r) => Some (u :: t, r)
              | None => None
              end in
            if e =? DQUOTE then simple DQUOTE
            else if e =? 92 then simple 92
            else if e =? 47 then simple 47
            else if e =? 98 then simple 8
            else if e =? 102 then simple 12
            else if e =? 110 then simple 10
            else if e =? 114 then simple 13
            else if e =? 116 then simple 9
            else if e =? 117 then
              match rest' with
              | h1 :: h2 :: h3 :: h4 :: rest'' =>
                  match hex_digit h1, hex_digit h2, hex_digit h3, hex_digit h4,
                        parse_chars rest'' with
                  | Some a, Some b, Some c', Some d, Some (t, r) =>
                      Some ((((a * 16 + b) * 16 + c') * 16 + d) :: t, r)
                  | _, _, _, _, _ => None
                  end
              | _ => None
              end
            else None
        | [] => None
        end
      else
        match parse_chars rest with
        | Some (t, r) => Some (c :: t, r)
        | None => None
        end
  end.

(** The digits at the head of [s], their value, and the text after them. *)
Fixpoint parse_digits (acc : N) (s : jstring) : N * jstring :=
  match s with
  | c :: rest => if is_digit c then parse_digits (acc * 10 + (c - 48)) rest else (acc, s)
  | [] => (acc, [])
  end.

(** An integer literal: a single zero, or digits that start with a
    non-zero digit; a fraction or an exponent after it is refused. *)
Definition parse_natural (s : jstring) : option (N * jstring) :=
  match s with
  | c :: rest =>
      if is_digit c then
        let (n, r) := if c =? 48 then (0, rest) else parse_digits 0 s in
        match r with
        | d :: _ =>
            if is_digit d || (d =? 46) || (d =? 101) || (d =? 69)
            then None else Some (n, r)
        | [] => Some (n, r)
        end
      else None
  | [] => None
  end.

(** An array index: the canonical decimal form of an integer below
    [2^32 - 1].  Such keys come first among the properties of an object,
    in ascending order. *)
Definition array_index (key : jstring) : option N :=
  match parse_natural key with
  | Some (n, []) => if n <? 4294967295 then Some n else None
  | _ => None
  end.

(** Defines the property [key] of an object under construction. *)
Fixpoint define_property (key : jstring) (v : json)
    (props : list (jstring * json)) : list (jstring * json) :=
  match props with
  | [] => [(key, v)]
  | (k, x) :: rest =>
      if eqb k key then (k, v) :: rest
      else
        match array_index key, array_index k with
        | Some n, Some m =>
            if n <? m then (key, v) :: props
            else (k, x) :: define_property key v rest
        | Some _, None => (key, v) :: props
        | None, _ => (k, x) :: define_property key v rest
        end
  end.

Definition literal (word : string) (v : json) (s : jstring)
  : option (json * jstring) :=
  if starts_with (js word) s
  then Some (v, skipn (String.length word) s)
  else None.

(** A JSON value at the head of [s], after white space. *)
Fixpoint parse_value (fuel : nat) (s : jstring) : option (json * jstring) :=
  match fuel with
  | O => None
  | S fuel' =>
      match skip_space s with
      | [] => None
      | c :: rest =>
          if c =? LBRACE then
            match skip_space rest with
            | d :: rest' =>
                if d =? RBRACE then Some (VObj [], rest')
                else parse_members fuel' rest []
            | [] => None
            end
          else if c =? LBRACKET then
            match skip_space rest with
            | d :: rest' =>
                if d =? RBRACKET then Some (VArr [], rest')
                else parse_elements fuel' rest []
            | [] => None
            end
          else if c =? DQUOTE then
            match parse_chars rest with
            | Some (t, r) => Some (VStr t, r)
            | None => None
            end
          else if c =? 45 then
            match parse_natural rest with
            | Some (n, r) => Some (VNum (- Z.of_N n)%Z, r)
            | None => None
            end
          else if is_digit c then
            match parse_natural (c :: rest) with
            | Some (n, r) => Some (VNum (Z.of_N n), r)
            | None => None
            end
          else if c =? 116 then literal "true" (VBool true) (c :: rest)
          else if c =? 102 then literal "false" (VBool false) (c :: rest)
          else if c =? 110 then literal "null" VNull (c :: rest)
          else None
      end
  end
with parse_elements (fuel : nat) (s : jstring) (acc : list json)
  : option (json * jstring) :=
  match fuel with
  | O => None
  | S fuel' =>
      match parse_value fuel' s with
      | Some (v, r) =>
          match skip_space r with
          | d :: r' =>
              if d =? COMMA then parse_elements fuel' r' (acc ++ [v])
              else if d =? RBRACKET then Some (VArr (acc ++ [v]), r')
              else None
          | [] => None
          end
      | None => None
      end
  end
with parse_members (fuel : nat) (s : jstring) (acc : list (jstring * json))
  : option (json * jstring) :=
  match fuel with
  | O => None
  | S fuel' =>
      match skip_space s with
      | q :: r0 =>
          if q =? DQUOTE then
            match parse_chars r0 with
            | Some (key, r1) =>
                match skip_space r1 with
                | colon :: r2 =>
                    if colon =? 58 then
                      match parse_value fuel' r2 with
                      | Some (v, r3) =>
                          match skip_space r3 with
                          | d :: r4 =>
                              if d =? COMMA
                              then parse_members fuel' r4 (define_property key v acc)
                              else if d =? RBRACE
                              then Some (VObj (define_property key v acc), r4)
                              else None
                          | [] => None
                          end
                      | None => None
                      end
                    else None
                | [] => None
                end
            | None => None
            end
          else None
      | [] => None
      end
  end.

Definition syntax_error : jstring := js "Unexpected token in JSON".

(** [JSON.parse(text)] *)
Definition parse (text : jstring) : jstring + json :=
  match parse_value (S (length text)) text with
  | Some (v, r) =>
      match skip_space r with
      | [] => inr v
      | _ :: _ => inl syntax_error
      end
  | None => inl syntax_error
  end.

Definition hex (n : N) : code_unit := if n <? 10 then 48 + n else 87 + n.

Definition unicode_escape (c : code_unit) : jstring :=
  [92; 117; hex (c / 4096 mod 16); hex (c / 256 mod 16);
   hex (c / 16 mod 16); hex (c mod 16)].

Definition is_high_surrogate (c : code_unit) : bool := (55296 <=? c) && (c <=? 56319).
Definition is_low_surrogate (c : code_unit) : bool := (56320 <=? c) && (c <=? 57343).

(** The characters of [QuoteJSONString]: short escapes, [\u] escapes for
    the other control characters and for lone surrogates. *)
Fixpoint quote_chars (s : jstring) : jstring :=
  match s with
  | [] => []
  | c :: rest =>
      if c =? DQUOTE then [92; DQUOTE] ++ quote_chars rest
      else if c =? 92 then [92; 92] ++ quote_chars rest
      else if c =? 8 then [92; 98] ++ quote_chars rest
      else if c =? 9 then [92; 116] ++ quote_chars rest
      else if c =? 10 then [92; 110] ++ quote_chars rest
      else if c =? 12 then [92; 102] ++ quote_chars rest
      else if c =? 13 then [92; 114] ++ quote_chars rest
      else if c <? 32 then unicode_escape c ++ quote_chars rest
      else if is_high_surrogate c then
        match rest with
        | d :: rest' =>
            if is_low_surrogate d then c :: d :: quote_chars rest'
            else unicode_escape c ++ quote_chars rest
        | [] => unicode_escape c
        end
      else if is_low_surrogate c then unicode_escape c ++ quote_chars rest
      else c :: quote_chars rest
  end.

Definition quote (s : jstring) : jstring := [DQUOTE] ++ quote_chars s ++ [DQUOTE].

Definition decimal (n : Z) : jstring :=
  js (DecimalString.NilZero.string_of_int (Z.to_int n)).

(** [JSON.stringify(v)]; [None] is [undefined]. *)
Fixpoint serialize (v : json) : option jstring :=
  match v with
  | VUndefined => None
  | VNative _ => None
  | VNull => Some (js "null")
  | VBool b => Some (js (if b then "true" else "false"))
  | VNum n => Some (decimal n)
  | VStr s => Some (quote s)
  | VArr elems =>
      Some (js "[" ++ join (js ",")
              (map (fun x => match serialize x with
                             | Some t => t
                             | None => js "null"
                             end) elems) ++ js "]")
  | VObj props =>
      Some (js "{" ++ join (js ",")
              (flat_map (fun p => match p with
                                  | (k, x) =>
                                      match serialize x with
                                      | Some t => [quote k ++ js ":" ++ t]
                                      | None => []
                                      end
                                  end) props) ++ js "}")
  end.

Definition stringify (v : json) : jstring :=
  match serialize v with
  | Some t => t
  | None => js "undefined"
  end.

(** [String(v)] for a primitive [v]. *)
Definition to_string (v : json) : jstring :=
  match v with
  | VNull => js "null"
  | VBool b => js (if b then "true" else "false")
  | VNum n => decimal n
  | VStr s => s
  | _ => js "undefined"
  end.

Definition index_in (key : jstring) (elems : list json) : option nat :=
  match array_index key with
  | Some n => if (N.to_nat n <? length elems)%nat then Some (N.to_nat n) else None
  | None => None
  end.

Fixpoint replace_nth (n : nat) (v : json) (elems : list json) : list json :=
  match elems, n with
  | [], _ => []
  | _ :: rest, O => v :: rest
  | x :: rest, S n' => x :: replace_nth n' v rest
  end.

Definition array_in (key : jstring) (v : json) : jstring + bool :=
  match v with
  | VArr elems =>
      inr (match index_in key elems with
           | Some _ => true
           | None => eqb key (js "length")
           end)
  | _ => inl (js "Cannot use 'in' operator to search for '" ++ key
              ++ js "' in " ++ to_string v)
  end.

Definition array_get (key : jstring) (v : json) : json :=
  match v with
  | VArr elems =>
      match index_in key elems with
      | Some n => nth n elems VUndefined
      | None =>
          if eqb key (js "length") then VNum (Z.of_nat (length elems))
          else VUndefined
      end
  | _ => VUndefined
  end.

Definition array_set (key : jstring) (x : json) (v : json) : jstring + json :=
  match v with
  | VArr elems =>
      match index_in key elems with
      | Some n => inr (VArr (replace_nth n x elems))
      | None => inl (js "Invalid array length")
      end
  | _ => inl (js "Cannot create property '" ++ key ++ js "' on " ++ to_string v)
  end.

Definition values (v : json) : jstring + list json :=
  match v with
  | VArr elems => inr elems
  | VStr s => inr (map (fun c => VStr [c]) s)
  | VNull => inl (js "Cannot convert undefined or null to object")
  | VUndefined => inl (js "Cannot convert undefined or null to object")
  | _ => inr []
  end.

#[export] Instance runtime : Runtime := {
  number := Z;
  JSON_parse := parse;
  JSON_stringify := stringify;
  exotic_in := array_in;
  exotic_get := array_get;
  exotic_set := array_set;
  exotic_values := values
}.

End Reference.

(** ** The sanitization step in the words of the specification

    The specification describes the extraction as locating the first
    balanced JSON object or array substring.  [first_balanced] is that
    description: the first opener from which the brackets of the text
    nest properly up to its own closer. *)

Module SpecWords.

Definition closer_of (c : code_unit) : option code_unit :=
  if c =? LBRACE then Some RBRACE
  else if c =? LBRACKET then Some RBRACKET
  else None.

(** The shortest prefix of [s] that closes every bracket of [stack], the
    closers still expected, innermost first. *)
Fixpoint balanced_prefix (stack : list code_unit) (s : jstring) {struct s}
  : option jstring :=
  match stack with
  | [] => Some []
  | expected :: stack' =>
      match s with
      | [] => None
      | c :: rest =>
          match closer_of c with
          | Some closer => option_map (cons c) (balanced_prefix (closer :: stack) rest)
          | None =>
              if is_closer c then
                if c =? expected
                then option_map (cons c) (balanced_prefix stack' rest)
                else None
              else option_map (cons c) (balanced_prefix stack rest)
          end
      end
  end.

Fixpoint first_balanced (s : jstring) : option jstring :=
  match s with
  | [] => None
  | c :: rest =>
      match closer_of c with
      | Some closer =>
          match balanced_prefix [closer] rest with
          | Some body => Some (c :: body)
          | None => first_balanced rest
          end
      | None => first_balanced rest
      end
  end.

(** The specification on a field with a closed set of allowed values: if
    the value of the record is a sequence, its first element is taken; if
    the resulting value is not a member of the allowed set and a
    non-empty default category was configured, the default category
    replaces it. *)
Definition resolve_enum {R : Runtime} (default_category : jstring)
    (options : list jstring) (v : val) : val :=
  let first := if Array_isArray v then first_element v else v in
  if negb (Array_includes options first) && negb (eqb default_category [])
  then VStr default_category
  else first.

End SpecWords.
Import SpecWords.

(** ** Concrete requests

    Replies and shapes on which the function is run below, on the
    reference runtime. *)

Module Examples.

Definition gemini : jstring := js "models/gemini-1.5-flash".

Definition quiz_master : jstring := js "You are a helpful quiz generator.".

(** [{ answer: 'a short answer' }] *)
Definition answer_format : OutputFormat :=
  [(js "answer", inl (js "a short answer"))].

(** [{ question: 'question', answer: 'answer with max length of 15 words' }] *)
Definition quiz_format : OutputFormat :=
  [(js "question", inl (js "question"));
   (js "answer", inl (js "answer with max length of 15 words"))].

(** [{ difficulty: ['easy', 'hard'] }] *)
Definition difficulty_format : OutputFormat :=
  [(js "difficulty", inr [js "easy"; js "hard"])].

(** A provider that answers every call with the same text. *)
Definition always (text : jstring) : nat -> jstring -> jstring -> jstring + jstring :=
  fun _ _ _ => inr text.

(** A provider that fails on the first call, answers the second and the
    third call with prose, and every later call with an object. *)
Definition flaky : nat -> jstring -> jstring -> jstring + jstring :=
  fun i _ _ =>
    match i with
    | 0%nat => inl (js "quota exceeded")
    | 1%nat => inr (js "Sorry, I cannot help with that.")
    | 2%nat => inr (js "I do not know.")
    | _ => inr (jq "{'answer': 'Paris'}")
    end.

Definition prose : jstring := js "I cannot answer that.".

Definition paris : jstring := jq "{'answer': 'Paris'}".

Definition one_question : jstring :=
  jq "{'question': 'What is the capital of France?', 'answer': 'Paris'}".

(** The reply of the specification's example: a fenced block with single
    quotes and a trailing comma. *)
Definition fenced_reply : jstring :=
  js "```json" ++ LF ++ js "{'a': 1,}" ++ LF ++ js "```".

Definition two_objects : jstring := jq "{'a': 1} and {'b': 2}".

(** A record with a key that the shape does not declare. *)
Definition with_source : jstring :=
  jq "{'question': 'Capital of France?', 'answer': 'Paris', 'source': 'atlas'}".

(** A record whose field is a sequence: its first element is not an
    allowed value, its second one is. *)
Definition medium_then_hard : list (jstring * value Z) :=
  [(js "difficulty", VArr [VStr (js "medium"); VStr (js "hard")])].

End Examples.

(** * Verification *)

(** ** Strings *)

Module StringFacts.

Lemma eqb_eq (s t : jstring) : eqb s t = true <-> s = t.
Proof.
  revert t; induction s as [|c s IH]; intros [|d t]; simpl;
    try (split; [discriminate | discriminate]); try tauto.
  rewrite andb_true_iff, N.eqb_eq, IH.
  split; [intros [-> ->]; reflexivity | intros H; inversion H; auto].
Qed.

Lemma eqb_refl (s : jstring) : eqb s s = true.
Proof. apply eqb_eq; reflexivity. Qed.

Lemma eqb_neq (s t : jstring) : eqb s t = false <-> s <> t.
Proof.
  rewrite <- eqb_eq. destruct (eqb s t); split; congruence.
Qed.

Lemma eqb_sym (s t : jstring) : eqb s t = eqb t s.
Proof.
  destruct (eqb s t) eqn:E.
  - apply eqb_eq in E; subst; symmetry; apply eqb_refl.
  - destruct (eqb t s) eqn:E'; auto.
    apply eqb_eq in E'; subst. rewrite eqb_refl in E; discriminate.
Qed.

Lemma starts_with_iff (p s : jstring) :
  starts_with p s = true <-> exists t, s = p ++ t.
Proof.
  revert s; induction p as [|c p IH]; intros s; simpl.
  - split; eauto.
  - destruct s as [|d s].
    + split; [discriminate | intros [t H]; discriminate].
    + rewrite andb_true_iff, N.eqb_eq, IH. split.
      * intros [-> [t ->]]; eauto.
      * intros [t H]; inversion H; eauto.
Qed.

Lemma includes_iff (needle s : jstring) :
  includes needle s = true <-> exists a b, s = a ++ needle ++ b.
Proof.
  induction s as [|c s IH]; simpl.
  - rewrite orb_false_r, starts_with_iff. split.
    + intros [t H]; exists [], t; exact H.
    + intros [a [b H]]. destruct a; simpl in H.
      * eauto.
      * discriminate.
  - rewrite orb_true_iff, starts_with_iff, IH. split.
    + intros [[t H] | [a [b H]]].
      * exists [], t; exact H.
      * exists (c :: a), b; rewrite H; reflexivity.
    + intros [[|d a] [b H]]; simpl in H.
      * left; eauto.
      * right; inversion H; eauto.
Qed.

(** A key includes the string of one [<] when [<] is one of its code
    units. *)
Lemma includes_lt_iff (key : jstring) : includes [LT] key = true <-> In LT key.
Proof.
  rewrite includes_iff. split.
  - intros [a [b ->]]. apply in_or_app; right; left; reflexivity.
  - intros H. apply in_split in H. destruct H as [a [b ->]]. exists a, b; reflexivity.
Qed.

Lemma trim_start_suffix (s : jstring) : exists a, s = a ++ trim_start s.
Proof.
  induction s as [|c s [a IH]]; simpl.
  - exists []; reflexivity.
  - destruct (is_white_space c).
    + exists (c :: a); simpl; congruence.
    + exists []; reflexivity.
Qed.

Lemma trim_infix (s : jstring) : exists a b, s = a ++ trim s ++ b.
Proof.
  unfold trim, trim_end.
  destruct (trim_start_suffix s) as [a Ha].
  destruct (trim_start_suffix (rev (trim_start s))) as [b Hb].
  exists a, (rev b).
  rewrite <- rev_app_distr, <- Hb, rev_involutive. exact Ha.
Qed.

Lemma includes_infix (needle a s b : jstring) :
  includes needle s = true -> includes needle (a ++ s ++ b) = true.
Proof.
  rewrite !includes_iff. intros [x [y ->]].
  exists (a ++ x), (y ++ b). rewrite <- !app_assoc. reflexivity.
Qed.

Lemma includes_app_right (needle a s : jstring) :
  includes needle s = true -> includes needle (a ++ s) = true.
Proof.
  intros H. rewrite <- (app_nil_r s). apply includes_infix. exact H.
Qed.

Lemma includes_app_left (needle s b : jstring) :
  includes needle s = true -> includes needle (s ++ b) = true.
Proof.
  intros H. apply (includes_infix needle [] s b). exact H.
Qed.

Lemma includes_head (needle b : jstring) : includes needle (needle ++ b) = true.
Proof.
  apply includes_iff. exists [], b. reflexivity.
Qed.

Section ReplaceFacts.
Variable match_at : jstring -> option (nat * jstring).

Lemma replace_from_skipn (k : nat) (s : jstring) :
  replace_from match_at k s = replace_all match_at (skipn k s).
Proof.
  revert k; induction s as [|c s IH]; intros [|k]; simpl; auto.
Qed.

(** The scan as an equation: after a match of [n] code units the scan
    resumes [n] code units further. *)
Lemma replace_all_cons (c : code_unit) (s : jstring) :
  replace_all match_at (c :: s) =
  match match_at (c :: s) with
  | Some (n, replacement) => replacement ++ replace_all match_at (skipn (pred n) s)
  | None => c :: replace_all match_at s
  end.
Proof.
  unfold replace_all at 1; simpl.
  destruct (match_at (c :: s)) as [[n r]|]; auto.
  rewrite replace_from_skipn; reflexivity.
Qed.
End ReplaceFacts.

End StringFacts.

(** ** The clean-up and the extraction *)

Module SanitizeFacts.
Import StringFacts.

Lemma starts_with_app (p q s : jstring) :
  starts_with (p ++ q) s = true -> starts_with p s = true.
Proof.
  rewrite !starts_with_iff. intros [t ->]. exists (q ++ t). symmetry; apply app_assoc.
Qed.

Lemma match_fence_none (s : jstring) :
  starts_with (js "```") s = false -> match_fence s = None.
Proof.
  intros H. unfold match_fence. rewrite H.
  destruct (starts_with (js "```json") s) eqn:E; auto.
  apply (starts_with_app (js "```") (js "json")) in E. congruence.
Qed.

Lemma match_fence_some (s : jstring) :
  starts_with (js "```") s = true ->
  exists n, match_fence s = Some (S n, []).
Proof.
  intros H. unfold match_fence. rewrite H.
  destruct (starts_with (js "```json") s); eauto.
Qed.

Lemma strip_no_match (c : code_unit) (s : jstring) :
  starts_with (js "```") (c :: s) = false ->
  replace_all match_fence (c :: s) = c :: replace_all match_fence s.
Proof.
  intros H. rewrite replace_all_cons, (match_fence_none _ H). reflexivity.
Qed.

Lemma strip_match (c : code_unit) (s : jstring) :
  starts_with (js "```") (c :: s) = true ->
  exists n, replace_all match_fence (c :: s) = replace_all match_fence (skipn n s).
Proof.
  intros H. destruct (match_fence_some _ H) as [n E].
  exists n. rewrite replace_all_cons, E. reflexivity.
Qed.

Lemma length_skipn_le (n : nat) (s : jstring) : (length (skipn n s) <= length s)%nat.
Proof. rewrite length_skipn. lia. Qed.

(** Settles that a text with a visible head does not begin with a fence. *)
Ltac not_fence :=
  match goal with
  | |- starts_with ?p ?s = false =>
      let X := fresh "X" in
      let t := fresh "t" in
      destruct (starts_with p s) eqn:X; [|reflexivity];
      apply starts_with_iff in X; destruct X as [t X];
      change (js "```") with [BACKTICK; BACKTICK; BACKTICK] in X;
      simpl in X; inversion X; subst; congruence
  end.

(** The stripped text does not begin with a fence. *)
Lemma strip_head (n : nat) :
  forall s, (length s <= n)%nat ->
  starts_with (js "```") (replace_all match_fence s) = false.
Proof.
  induction n as [|n IH]; intros s Hlen.
  - destruct s; [reflexivity | simpl in Hlen; lia].
  - destruct s as [|c s]; [reflexivity|].
    simpl in Hlen.
    destruct (starts_with (js "```") (c :: s)) eqn:E.
    + destruct (strip_match _ _ E) as [k ->]. apply IH.
      pose proof (length_skipn_le k s). lia.
    + rewrite (strip_no_match _ _ E).
      destruct (N.eq_dec c BACKTICK) as [->|Hc]; [|not_fence].
      destruct s as [|d s]; [reflexivity|].
      destruct (N.eq_dec d BACKTICK) as [->|Hd].
      * destruct s as [|e s]; [reflexivity|].
        destruct (N.eq_dec e BACKTICK) as [->|He]; [discriminate E|].
        assert (E1 : starts_with (js "```") (BACKTICK :: e :: s) = false) by not_fence.
        assert (E2 : starts_with (js "```") (e :: s) = false) by not_fence.
        rewrite (strip_no_match _ _ E1), (strip_no_match _ _ E2).
        not_fence.
      * assert (E1 : starts_with (js "```") (d :: s) = false) by not_fence.
        rewrite (strip_no_match _ _ E1). not_fence.
Qed.

Lemma strip_no_fence (n : nat) :
  forall s, (length s <= n)%nat ->
  includes (js "```") (replace_all match_fence s) = false.
Proof.
  induction n as [|n IH]; intros s Hlen.
  - destruct s; [reflexivity | simpl in Hlen; lia].
  - destruct s as [|c s]; [reflexivity|].
    simpl in Hlen.
    destruct (starts_with (js "```") (c :: s)) eqn:E.
    + destruct (strip_match _ _ E) as [k ->]. apply IH.
      pose proof (length_skipn_le k s). lia.
    + pose proof (strip_head (S n) (c :: s)) as Hhead.
      rewrite (strip_no_match _ _ E) in *.
      change (includes (js "```") (c :: replace_all match_fence s))
        with (starts_with (js "```") (c :: replace_all match_fence s)
              || includes (js "```") (replace_all match_fence s)).
      rewrite Hhead by (simpl; lia). rewrite IH by lia. reflexivity.
Qed.

(** No fence marker is left after line 59. *)
Lemma strip_fences_no_fence (res : jstring) :
  includes (js "```") (strip_fences res) = false.
Proof.
  unfold strip_fences.
  destruct (includes (js "```") (trim (replace_all match_fence res))) eqn:E; auto.
  destruct (trim_infix (replace_all match_fence res)) as [a [b H]].
  apply (includes_infix _ a _ b) in E. rewrite <- H in E.
  rewrite (strip_no_fence (length res)) in E by lia. discriminate.
Qed.

(** Line 60 maps every single quote to a double quote and nothing else. *)
Lemma replace_quotes_map (res : jstring) :
  replace_quotes res = map (fun c => if c =? QUOTE then DQUOTE else c) res.
Proof.
  unfold replace_quotes.
  induction res as [|c res IH]; [reflexivity|].
  rewrite replace_all_cons. simpl.
  destruct (c =? QUOTE); simpl; rewrite IH; reflexivity.
Qed.

Lemma trim_start_app (s t : jstring) :
  trim_start (s ++ t) =
  match trim_start s with
  | [] => trim_start t
  | _ :: _ => trim_start s ++ t
  end.
Proof.
  induction s as [|c s IH]; simpl.
  - reflexivity.
  - destruct (is_white_space c); [exact IH | reflexivity].
Qed.

Lemma trim_start_length (s : jstring) : (length (trim_start s) <= length s)%nat.
Proof.
  induction s as [|c s IH]; simpl; [lia|].
  destruct (is_white_space c); simpl; lia.
Qed.

Lemma trim_start_skipn (s : jstring) :
  skipn (length s - length (trim_start s)) s = trim_start s.
Proof.
  induction s as [|c s IH]; [reflexivity|].
  cbn [trim_start]. destruct (is_white_space c).
  - pose proof (trim_start_length s).
    replace (length (c :: s) - length (trim_start s))%nat
      with (S (length s - length (trim_start s))) by (cbn [length]; lia).
    exact IH.
  - rewrite Nat.sub_diag. reflexivity.
Qed.

Lemma trim_start_white (ws t : jstring) :
  forallb is_white_space ws = true -> trim_start (ws ++ t) = trim_start t.
Proof.
  induction ws as [|c ws IH]; simpl; [reflexivity|].
  intros H. apply andb_true_iff in H. destruct H as [-> H]. auto.
Qed.

Lemma closer_not_white (c : code_unit) :
  is_closer c = true -> is_white_space c = false.
Proof.
  unfold is_closer. rewrite orb_true_iff, !N.eqb_eq. intros [-> | ->]; reflexivity.
Qed.

Lemma skipn_next (k : nat) (s : jstring) (d : code_unit) (rest : jstring) :
  skipn k s = d :: rest -> skipn (S k) s = rest.
Proof.
  intros H. change (S k) with (1 + k)%nat.
  rewrite <- skipn_skipn, H. reflexivity.
Qed.

(** The scan of line 61 as an equation. *)
Lemma remove_trailing_commas_cons (c : code_unit) (s : jstring) :
  remove_trailing_commas (c :: s) =
  if c =? COMMA then
    match trim_start s with
    | d :: rest =>
        if is_closer d then d :: remove_trailing_commas rest
        else c :: remove_trailing_commas s
    | [] => c :: remove_trailing_commas s
    end
  else c :: remove_trailing_commas s.
Proof.
  unfold remove_trailing_commas. rewrite replace_all_cons.
  unfold match_trailing_comma.
  destruct (c =? COMMA); [|reflexivity].
  pose proof (trim_start_skipn s) as Hskip.
  destruct (trim_start s) as [|d rest]; [reflexivity|].
  destruct (is_closer d); [|reflexivity].
  cbn [pred app]. f_equal. f_equal.
  eapply skipn_next; exact Hskip.
Qed.

(** A comma followed by white space and a closer is dropped together
    with the white space, wherever it stands in the text. *)
Lemma remove_trailing_commas_app (n : nat) :
  forall a ws c b,
    (length a <= n)%nat ->
    forallb is_white_space ws = true ->
    is_closer c = true ->
    remove_trailing_commas (a ++ COMMA :: ws ++ c :: b) =
    remove_trailing_commas a ++ c :: remove_trailing_commas b.
Proof.
  induction n as [|n IH]; intros a ws c b Hlen Hws Hc.
  - destruct a; [|simpl in Hlen; lia]. simpl app.
    rewrite remove_trailing_commas_cons. simpl (COMMA =? COMMA).
    rewrite (trim_start_white _ _ Hws). simpl.
    rewrite (closer_not_white _ Hc), Hc. reflexivity.
  - destruct a as [|x a].
    + apply (IH []); auto. simpl; lia.
    + simpl in Hlen. simpl app.
      rewrite !remove_trailing_commas_cons.
      destruct (x =? COMMA).
      * rewrite trim_start_app.
        pose proof (trim_start_length a) as Hts.
        destruct (trim_start a) as [|d rest].
        -- simpl trim_start. simpl. rewrite IH by (auto; lia). reflexivity.
        -- rewrite <- app_comm_cons. cbv beta iota. destruct (is_closer d).
           ++ simpl in Hts. rewrite IH by (auto; lia). reflexivity.
           ++ rewrite IH by (auto; lia). reflexivity.
      * rewrite IH by (auto; lia). reflexivity.
Qed.

Lemma up_to_last_none (closer : code_unit) (s : jstring) :
  up_to_last closer s = None <-> ~ In closer s.
Proof.
  induction s as [|c s IH]; simpl.
  - tauto.
  - destruct (up_to_last closer s) as [body|].
    + split; [discriminate|]. intros H.
      assert (~ In closer s) by tauto. apply IH in H0. discriminate.
    + destruct (N.eqb_spec c closer) as [->|Hc].
      * split; [discriminate | intros H; exfalso; auto].
      * split; auto. intros _ [H|H]; [congruence|]. apply IH in H; auto.
Qed.

Lemma up_to_last_some (closer : code_unit) (s body : jstring) :
  up_to_last closer s = Some body ->
  exists inner after,
    body = inner ++ [closer] /\ s = inner ++ closer :: after /\ ~ In closer after.
Proof.
  revert body; induction s as [|c s IH]; simpl; intros body H; [discriminate|].
  destruct (up_to_last closer s) as [body'|] eqn:E.
  - inversion H; subst.
    destruct (IH _ eq_refl) as [inner [after [-> [-> Hn]]]].
    exists (c :: inner), after. auto.
  - destruct (N.eqb_spec c closer) as [->|Hc]; [|discriminate].
    inversion H; subst. exists [], s. repeat split.
    apply up_to_last_none; exact E.
Qed.

Lemma brackets_opener (o c : code_unit) :
  In (o, c) brackets ->
  (o = LBRACE /\ c = RBRACE) \/ (o = LBRACKET /\ c = RBRACKET).
Proof.
  intros [H | [H | []]]; inversion H; auto.
Qed.

Lemma no_span_cons (a : code_unit) (s : jstring) :
  (forall c, In (a, c) brackets -> ~ In c s) -> no_span s -> no_span (a :: s).
Proof.
  intros Ha Hs p o q c E Hb.
  destruct p as [|x p]; simpl in E; inversion E; subst.
  - apply Ha; exact Hb.
  - eapply Hs; eauto.
Qed.

Lemma json_match_none (s : jstring) : json_match s = None <-> no_span s.
Proof.
  induction s as [|a s IH]; simpl.
  - split; auto. intros _ p o q c E. destruct p; discriminate.
  - assert (Htail : no_span (a :: s) -> no_span s).
    { intros H p o q c E. apply (H (a :: p)). rewrite E. reflexivity. }
    destruct (N.eqb_spec a LBRACE) as [->|Hbrace].
    + destruct (up_to_last RBRACE s) as [body|] eqn:E.
      * split; [discriminate|]. intros H. exfalso.
        assert (Hn : ~ In RBRACE s) by (apply (H [] LBRACE s RBRACE); simpl; auto).
        apply up_to_last_none in Hn. congruence.
      * rewrite IH. split; [|exact Htail].
        intros H. apply no_span_cons; auto.
        intros c Hc. apply brackets_opener in Hc.
        destruct Hc as [[_ ->] | [Hc _]]; [|discriminate Hc].
        apply up_to_last_none; exact E.
    + destruct (N.eqb_spec a LBRACKET) as [->|Hbracket].
      * destruct (up_to_last RBRACKET s) as [body|] eqn:E.
        -- split; [discriminate|]. intros H. exfalso.
           assert (Hn : ~ In RBRACKET s)
             by (apply (H [] LBRACKET s RBRACKET); simpl; auto).
           apply up_to_last_none in Hn. congruence.
        -- rewrite IH. split; [|exact Htail].
           intros H. apply no_span_cons; auto.
           intros c Hc. apply brackets_opener in Hc.
           destruct Hc as [[Hc _] | [_ ->]]; [discriminate Hc|].
           apply up_to_last_none; exact E.
      * rewrite IH. split; [|exact Htail].
        intros H. apply no_span_cons; auto.
        intros c Hc. apply brackets_opener in Hc.
        destruct Hc as [[Hc _] | [Hc _]]; congruence.
Qed.

(** The extracted text runs from the first opener that has a closer of
    its kind after it to the last such closer of the text. *)
Lemma json_match_some (s m : jstring) :
  json_match s = Some m ->
  exists before opener body closer after,
    s = before ++ opener :: body ++ closer :: after /\
    m = opener :: body ++ [closer] /\
    In (opener, closer) brackets /\
    ~ In closer after /\
    (forall p o q c, before = p ++ o :: q -> In (o, c) brackets ->
                     ~ In c (q ++ opener :: body ++ closer :: after)).
Proof.
  revert m; induction s as [|a s IH]; simpl; intros m H; [discriminate|].
  assert (Hfound : forall closer body,
             In (a, closer) brackets ->
             up_to_last closer s = Some body -> m = a :: body ->
             exists before opener body closer after,
               a :: s = before ++ opener :: body ++ closer :: after /\
               m = opener :: body ++ [closer] /\
               In (opener, closer) brackets /\
               ~ In closer after /\
               (forall p o q c, before = p ++ o :: q -> In (o, c) brackets ->
                                ~ In c (q ++ opener :: body ++ closer :: after))).
  { intros closer body Hb E ->.
    destruct (up_to_last_some _ _ _ E) as [inner [after [-> [-> Hn]]]].
    exists [], a, inner, closer, after. repeat split; auto.
    intros p o q c Hp. destruct p; discriminate. }
  assert (Hnext : (forall c, In (a, c) brackets -> ~ In c s) ->
             json_match s = Some m ->
             exists before opener body closer after,
               a :: s = before ++ opener :: body ++ closer :: after /\
               m = opener :: body ++ [closer] /\
               In (opener, closer) brackets /\
               ~ In closer after /\
               (forall p o q c, before = p ++ o :: q -> In (o, c) brackets ->
                                ~ In c (q ++ opener :: body ++ closer :: after))).
  { intros Ha E.
    destruct (IH _ E) as [before [opener [body [closer [after [-> [-> [Hb [Hn Hbefore]]]]]]]]].
    exists (a :: before), opener, body, closer, after. repeat split; auto.
    intros p o q c Hp Hoc. destruct p as [|x p]; simpl in Hp; inversion Hp; subst.
    - apply Ha; exact Hoc.
    - eapply Hbefore; eauto. }
  destruct (N.eqb_spec a LBRACE) as [->|Hbrace].
  - destruct (up_to_last RBRACE s) as [body|] eqn:E.
    + inversion H; subst. eapply Hfound; eauto. simpl; auto.
    + apply Hnext; auto. intros c Hc. apply brackets_opener in Hc.
      destruct Hc as [[_ ->] | [Hc _]]; [|discriminate Hc].
      apply up_to_last_none; exact E.
  - destruct (N.eqb_spec a LBRACKET) as [->|Hbracket].
    + destruct (up_to_last RBRACKET s) as [body|] eqn:E.
      * inversion H; subst. eapply Hfound; eauto. simpl; auto.
      * apply Hnext; auto. intros c Hc. apply brackets_opener in Hc.
        destruct Hc as [[Hc _] | [_ ->]]; [discriminate Hc|].
        apply up_to_last_none; exact E.
    + apply Hnext; auto. intros c Hc. apply brackets_opener in Hc.
      destruct Hc as [[Hc _] | [Hc _]]; congruence.
Qed.

End SanitizeFacts.

(** ** Validation of one record *)

Module ValidateFacts.
Import StringFacts.

Section Records.
Context {R : Runtime}.
Variable default_category : jstring.

Lemma own_get_set_same (key : jstring) (v : val) (props : list (jstring * val)) :
  own_get key (own_set key v props) = Some v.
Proof.
  induction props as [|[k x] props IH]; simpl.
  - rewrite eqb_refl; reflexivity.
  - destruct (eqb k key) eqn:E; simpl; rewrite E; auto.
Qed.

Lemma own_get_set_other (key k : jstring) (v : val) (props : list (jstring * val)) :
  k <> key -> own_get k (own_set key v props) = own_get k props.
Proof.
  intros Hk. induction props as [|[k' x] props IH]; simpl.
  - destruct (eqb key k) eqn:E; auto. apply eqb_eq in E; congruence.
  - destruct (eqb k' key) eqn:E; simpl.
    + apply eqb_eq in E; subst k'.
      destruct (eqb key k) eqn:E'; auto. apply eqb_eq in E'; congruence.
    + destruct (eqb k' k); auto.
Qed.

Lemma own_set_keys (key : jstring) (v : val) (props : list (jstring * val)) :
  exists extra, map fst (own_set key v props) = map fst props ++ extra.
Proof.
  induction props as [|[k x] props [extra IH]]; simpl.
  - exists [key]; reflexivity.
  - destruct (eqb k key); simpl.
    + exists []; rewrite app_nil_r; reflexivity.
    + exists extra; rewrite IH; reflexivity.
Qed.

Lemma own_set_own (key k : jstring) (v : val) (props : list (jstring * val)) :
  own k (own_set key v props) = own k props || eqb k key.
Proof.
  unfold own. destruct (eqb k key) eqn:E.
  - apply eqb_eq in E; subst. rewrite own_get_set_same, orb_true_r; reflexivity.
  - apply eqb_neq in E. rewrite (own_get_set_other _ _ v props E), orb_false_r; reflexivity.
Qed.

(** An assignment to a key that the object has leaves the answer of
    [in] unchanged for every key. *)
Lemma has_property_set (key k : jstring) (v : val) (props : list (jstring * val)) :
  has_property key props = true ->
  has_property k (own_set key v props) = has_property k props.
Proof.
  unfold has_property. intros H. rewrite own_set_own.
  destruct (eqb k key) eqn:E.
  - apply eqb_eq in E; subst k. rewrite orb_true_r. simpl. symmetry; exact H.
  - rewrite orb_false_r; reflexivity.
Qed.

(** What an assignment does to a plain object. *)
Lemma set_object (key : jstring) (v : val) (props : list (jstring * val)) :
  exists props',
    set key v (VObj props) = inr (VObj props') /\
    (props' = own_set key v props \/ (props' = props /\ own key props = false)).
Proof.
  unfold set.
  destruct (negb (own key props) && eqb key (js "__proto__")) eqn:E.
  - exists props. split; [reflexivity|]. right. split; [reflexivity|].
    apply andb_true_iff in E. destruct E as [E _].
    destruct (own key props); [discriminate | reflexivity].
  - exists (own_set key v props). split; [reflexivity | left; reflexivity].
Qed.

(** The effect of an assignment to a key that the object has. *)
Lemma set_object_frame (key : jstring) (v : val) (props : list (jstring * val)) :
  has_property key props = true ->
  exists props',
    set key v (VObj props) = inr (VObj props') /\
    (forall k, has_property k props' = has_property k props) /\
    (forall k, k <> key -> own_get k props' = own_get k props) /\
    (exists extra, map fst props' = map fst props ++ extra) /\
    (own key props = true -> own_get key props' = Some v).
Proof.
  intros Hhas. destruct (set_object key v props) as [props' [E [-> | [-> Hown]]]].
  - exists (own_set key v props). split; [exact E|]. repeat split.
    + intros k; apply has_property_set; exact Hhas.
    + intros k Hk; apply own_get_set_other; exact Hk.
    + apply own_set_keys.
    + intros _; apply own_get_set_same.
  - exists props. split; [exact E|]. repeat split; auto.
    + exists []; rewrite app_nil_r; reflexivity.
    + congruence.
Qed.

(** Lines 87-92 on a plain object that lacks the key. *)
Lemma validate_key_absent (key : jstring) (format : jstring + list jstring)
    (props : list (jstring * val)) :
  has_property key props = false ->
  validate_key default_category key format (VObj props) =
  if includes [LT] key then inr (VObj props)
  else inl (SchemaValidationError key (VObj props)).
Proof.
  intros H. unfold validate_key, key_in. simpl. rewrite H. simpl.
  destruct (includes [LT] key); reflexivity.
Qed.

(** A name that every object inherits, such as [toString], is never
    lacking: [in] finds it on the prototype, so a described key of that
    name passes on every plain object, which is left as it is. *)
Lemma validate_key_inherited (key description : jstring)
    (props : list (jstring * val)) :
  inherited key = true ->
  validate_key default_category key (inl description) (VObj props)
  = inr (VObj props).
Proof.
  intros H. unfold validate_key, key_in, has_property.
  rewrite H, orb_true_r. reflexivity.
Qed.

(** Lines 94-101 on a plain object that has the key. *)
Lemma validate_key_present (key : jstring) (format : jstring + list jstring)
    (props : list (jstring * val)) :
  has_property key props = true ->
  exists props',
    validate_key default_category key format (VObj props) = inr (VObj props') /\
    (forall k, has_property k props' = has_property k props) /\
    (forall k, k <> key -> own_get k props' = own_get k props) /\
    (exists extra, map fst props' = map fst props ++ extra) /\
    (forall description, format = inl description -> props' = props) /\
    (forall options v, format = inr options -> own_get key props = Some v ->
                       own_get key props' = Some (resolve_enum default_category options v)).
Proof.
  intros Hhas. unfold validate_key.
  assert (Ein : key_in key (VObj props) = inr true)
    by (unfold key_in, ret; rewrite Hhas; reflexivity).
  rewrite Ein. unfold bind at 1. cbv beta iota. cbn [negb].
  destruct format as [description | options].
  - exists props. repeat split; auto.
    + exists []; rewrite app_nil_r; reflexivity.
    + intros options v Hf; discriminate.
  - assert (Hstep1 : exists p1,
               (if Array_isArray (get key (VObj props))
                then set key (first_element (get key (VObj props))) (VObj props)
                else ret (VObj props)) = inr (VObj p1) /\
               (forall k, has_property k p1 = has_property k props) /\
               (forall k, k <> key -> own_get k p1 = own_get k props) /\
               (exists extra, map fst p1 = map fst props ++ extra) /\
               (forall v, own_get key props = Some v ->
                          own_get key p1 =
                          Some (if Array_isArray v then first_element v else v))).
    { destruct (Array_isArray (get key (VObj props))) eqn:Earr.
      - destruct (set_object_frame key (first_element (get key (VObj props))) props Hhas)
          as [p1 [E [H1 [H2 [H3 H4]]]]].
        exists p1. split; [exact E|]. repeat split; auto.
        intros v Hv. simpl in Earr, H4. rewrite Hv in Earr, H4.
        rewrite Earr. apply H4. unfold own. rewrite Hv. reflexivity.
      - exists props. split; [reflexivity|]. repeat split; auto.
        + exists []; rewrite app_nil_r; reflexivity.
        + intros v Hv. simpl in Earr. rewrite Hv in Earr. rewrite Earr. exact Hv. }
    destruct Hstep1 as [p1 [E1 [H1 [H2 [[extra1 H3] H4]]]]].
    match goal with
    | |- context [bind ?c _] =>
        let H := fresh in
        assert (H : c = inr (VObj p1)) by exact E1; rewrite H; clear H
    end.
    unfold bind. cbv beta iota.
    assert (Hhas1 : has_property key p1 = true) by (rewrite H1; exact Hhas).
    destruct (negb (Array_includes options (get key (VObj p1)))
              && negb (eqb default_category [])) eqn:Edef.
    + destruct (set_object_frame key (VStr default_category) p1 Hhas1)
        as [p2 [E2 [G1 [G2 [[extra2 G3] G4]]]]].
      exists p2. split; [exact E2|]. repeat split.
      * intros k. rewrite G1. apply H1.
      * intros k Hk. rewrite (G2 k Hk). apply H2; exact Hk.
      * exists (extra1 ++ extra2). rewrite G3, H3, app_assoc. reflexivity.
      * intros description Hf; discriminate.
      * intros options' v Hf Hv. inversion Hf; subst options'.
        pose proof (H4 v Hv) as Hp1.
        unfold resolve_enum. simpl in Edef. rewrite Hp1 in Edef.
        rewrite Edef. apply G4. unfold own. rewrite Hp1. reflexivity.
    + exists p1. split; [reflexivity|]. repeat split; auto.
      * exists extra1; exact H3.
      * intros description Hf; discriminate.
      * intros options' v Hf Hv. inversion Hf; subst options'.
        pose proof (H4 v Hv) as Hp1.
        unfold resolve_enum. simpl in Edef. rewrite Hp1 in Edef.
        rewrite Edef. exact Hp1.
Qed.
End Records.

Section Keys.
Context {R : Runtime}.
Variable default_category : jstring.

Lemma validate_keys_cons (key : jstring) (f : jstring + list jstring)
    (rest : OutputFormat) (item : val) :
  validate_keys default_category ((key, f) :: rest) item =
  match validate_key default_category key f item with
  | inl e => inl e
  | inr item' => validate_keys default_category rest item'
  end.
Proof. reflexivity. Qed.

(** The loop over the keys on a plain object that it accepts: the
    result is a plain object; [in] answers as before; only fields with
    allowed values change; no key is removed; every key of the shape
    that the object lacks has a [<]. *)
Lemma validate_keys_accepted (format : OutputFormat) :
  forall props out,
    validate_keys default_category format (VObj props) = inr out ->
    exists props',
      out = VObj props' /\
      (forall k, has_property k props' = has_property k props) /\
      (forall k, (forall options, ~ In (k, inr options) format) ->
                 own_get k props' = own_get k props) /\
      (exists extra, map fst props' = map fst props ++ extra) /\
      (forall k f, In (k, f) format -> has_property k props = false ->
                   includes [LT] k = true).
Proof.
  induction format as [|[key f] rest IH]; intros props out H.
  - inversion H; subst. exists props.
    split; [reflexivity|]. split; [reflexivity|]. split; [reflexivity|].
    split; [exists []; rewrite app_nil_r; reflexivity|].
    intros k f [].
  - rewrite validate_keys_cons in H.
    destruct (has_property key props) eqn:Hhas.
    + destruct (validate_key_present default_category key f props Hhas)
        as [p1 [E [H1 [H2 [[extra1 H3] [H4 _]]]]]].
      rewrite E in H.
      destruct (IH _ _ H) as [props' [-> [G1 [G2 [[extra2 G3] G4]]]]].
      exists props'. split; [reflexivity|]. repeat split.
      * intros k. rewrite G1. apply H1.
      * intros k Hk. rewrite G2 by (intros o Ho; apply (Hk o); right; exact Ho).
        destruct (eqb k key) eqn:Ek.
        -- apply eqb_eq in Ek; subst k. destruct f as [d | options].
           ++ rewrite (H4 d eq_refl). reflexivity.
           ++ exfalso. apply (Hk options). left; reflexivity.
        -- apply eqb_neq in Ek. apply H2; exact Ek.
      * exists (extra1 ++ extra2). rewrite G3, H3, app_assoc. reflexivity.
      * intros k f' [Hin | Hin] Hk.
        -- inversion Hin; subst. congruence.
        -- apply (G4 k f' Hin). rewrite H1. exact Hk.
    + rewrite (validate_key_absent default_category key f props Hhas) in H.
      destruct (includes [LT] key) eqn:Hlt; [|discriminate].
      destruct (IH _ _ H) as [props' [-> [G1 [G2 [G3 G4]]]]].
      exists props'. split; [reflexivity|]. repeat split; auto.
      * intros k Hk. apply G2. intros o Ho; apply (Hk o); right; exact Ho.
      * intros k f' [Hin | Hin] Hk.
        -- inversion Hin; subst. exact Hlt.
        -- apply (G4 k f' Hin Hk).
Qed.


(** The only exception of the loop on a plain object is the missing-key
    error, for a key of the shape without [<] that the object lacks. *)
Lemma validate_keys_rejected (format : OutputFormat) :
  forall props e,
    validate_keys default_category format (VObj props) = inl e ->
    exists k f item,
      In (k, f) format /\ has_property k props = false /\
      includes [LT] k = false /\ e = SchemaValidationError k item.
Proof.
  induction format as [|[key f] rest IH]; intros props e H; [discriminate|].
  rewrite validate_keys_cons in H.
  destruct (has_property key props) eqn:Hhas.
  - destruct (validate_key_present default_category key f props Hhas)
      as [p1 [E [H1 _]]].
    rewrite E in H. destruct (IH _ _ H) as [k [f' [item [Hin [Hk [Hlt ->]]]]]].
    exists k, f', item. repeat split; auto.
    + right; exact Hin.
    + rewrite <- H1; exact Hk.
  - rewrite (validate_key_absent default_category key f props Hhas) in H.
    destruct (includes [LT] key) eqn:Hlt.
    + destruct (IH _ _ H) as [k [f' [item [Hin [Hk [Hlt' ->]]]]]].
      exists k, f', item. repeat split; auto. right; exact Hin.
    + inversion H; subst. exists key, f, (VObj props). repeat split; auto.
      left; reflexivity.
Qed.

(** The field of a key with allowed values after the loop. *)
Lemma validate_keys_enum (format : OutputFormat) :
  forall props props' key options v,
    NoDup (map fst format) ->
    In (key, inr options) format ->
    own_get key props = Some v ->
    validate_keys default_category format (VObj props) = inr (VObj props') ->
    own_get key props' = Some (resolve_enum default_category options v).
Proof.
  induction format as [|[key0 f0] rest IH];
    intros props props' key options v Hnd Hin Hv H; [destruct Hin|].
  simpl in Hnd. inversion Hnd as [|? ? Hnotin Hnd']; subst.
  rewrite validate_keys_cons in H.
  destruct Hin as [Hin | Hin].
  - inversion Hin; subst key0 f0.
    assert (Hhas : has_property key props = true)
      by (unfold has_property, own; rewrite Hv; reflexivity).
    destruct (validate_key_present default_category key (inr options) props Hhas)
      as [p1 [E [_ [_ [_ [_ H5]]]]]].
    rewrite E in H.
    destruct (validate_keys_accepted _ _ _ H) as [p2 [Hp2 [_ [G2 _]]]].
    inversion Hp2; subst p2.
    rewrite G2.
    + apply H5; auto.
    + intros o Ho. apply Hnotin. apply (in_map fst) in Ho. exact Ho.
  - assert (Hneq : key <> key0).
    { intros ->. apply Hnotin. apply (in_map fst) in Hin. exact Hin. }
    destruct (has_property key0 props) eqn:Hhas.
    + destruct (validate_key_present default_category key0 f0 props Hhas)
        as [p1 [E [_ [H2 _]]]].
      rewrite E in H.
      apply (IH p1 props' key options v Hnd' Hin); [|exact H].
      rewrite (H2 key Hneq). exact Hv.
    + rewrite (validate_key_absent default_category key0 f0 props Hhas) in H.
      destruct (includes [LT] key0); [|discriminate].
      apply (IH props props' key options v Hnd' Hin Hv H).
Qed.
End Keys.

Section Outputs.
Context {R : Runtime}.
Variable output_format : OutputFormat.
Variable default_category : jstring.
Variable output_value_only : bool.

Lemma validate_item_keys (item out : val) :
  validate_item output_format default_category output_value_only item = inr out ->
  validate_keys default_category output_format item = inr out.
Proof.
  unfold validate_item, bind.
  destruct (validate_keys default_category output_format item) as [e | element];
    [discriminate|].
  destruct (if output_value_only then values_only element else ret element);
    [discriminate|].
  intros H; inversion H; reflexivity.
Qed.

Lemma validate_item_fails (item : val) (e : error) :
  validate_keys default_category output_format item = inl e ->
  validate_item output_format default_category output_value_only item = inl e.
Proof.
  unfold validate_item, bind. intros ->. reflexivity.
Qed.

(** On a plain object the flag [output_value_only] changes nothing: the
    element of [outputs] is the validated object. *)
Lemma validate_item_object (props : list (jstring * val)) :
  validate_item output_format default_category output_value_only (VObj props) =
  validate_keys default_category output_format (VObj props).
Proof.
  unfold validate_item, bind.
  destruct (validate_keys default_category output_format (VObj props))
    as [e | element] eqn:E; [reflexivity|].
  destruct (validate_keys_accepted _ _ _ _ E) as [props' [-> _]].
  destruct output_value_only; reflexivity.
Qed.

Lemma validate_outputs_cons (item : val) (rest : list val) :
  validate_outputs output_format default_category output_value_only (item :: rest) =
  match validate_item output_format default_category output_value_only item with
  | inl e => inl e
  | inr element =>
      match validate_outputs output_format default_category output_value_only rest with
      | inl e => inl e
      | inr elements => inr (element :: elements)
      end
  end.
Proof. reflexivity. Qed.

(** The elements of the result are the validated items, one for one and
    in the order of the items. *)
Lemma validate_outputs_each (outputs : list val) :
  forall elements,
    validate_outputs output_format default_category output_value_only outputs
    = inr elements ->
    Forall2 (fun item element =>
               validate_item output_format default_category output_value_only item
               = inr element) outputs elements.
Proof.
  induction outputs as [|item rest IH]; intros elements H.
  - inversion H; constructor.
  - rewrite validate_outputs_cons in H.
    destruct (validate_item output_format default_category output_value_only item)
      as [e | element] eqn:E; [discriminate|].
    destruct (validate_outputs output_format default_category output_value_only rest)
      as [e | elements'] eqn:E'; [discriminate|].
    inversion H; subst. constructor; auto.
Qed.

End Outputs.

End ValidateFacts.

(** ** The retry loop *)

Module RetryFacts.
Import StringFacts.

Section Loop.
Context {R : Runtime}.
Variable provider : nat -> jstring -> jstring -> jstring + jstring.
Variable system_prompt : jstring.
Variable user_prompt : jstring + list jstring.
Variable output_format : OutputFormat.
Variable default_category : jstring.
Variable output_value_only : bool.
Variable model : jstring.

Local Abbreviation try_once :=
  (attempt provider output_format default_category output_value_only model).
Local Abbreviation prompt_of := (build_prompt system_prompt user_prompt output_format).
Local Abbreviation run :=
  (attempts provider system_prompt user_prompt output_format default_category
            output_value_only model).

(** A failed attempt: its exception is caught, turned into the feedback
    text, and the loop goes on with the next attempt. *)
Lemma attempts_failed (remaining i : nat) (error_msg : jstring) (e : error) :
  try_once i (prompt_of error_msg) = inl e ->
  run (S remaining) i error_msg =
  (fst (run remaining (S i) (feedback e)),
   prompt_of error_msg :: snd (run remaining (S i) (feedback e))).
Proof.
  intros H. simpl. rewrite H.
  destruct (run remaining (S i) (feedback e)); reflexivity.
Qed.

(** A successful attempt ends the loop. *)
Lemma attempts_succeeded (remaining i : nat) (error_msg : jstring)
    (outputs : list val) :
  try_once i (prompt_of error_msg) = inr outputs ->
  run (S remaining) i error_msg = (Returned outputs, [prompt_of error_msg]).
Proof.
  intros H. simpl. rewrite H. reflexivity.
Qed.

(** When every attempt fails, the loop makes all its iterations and the
    call throws the final error. *)
Lemma attempts_all_fail (remaining : nat) :
  forall i error_msg,
    (forall j prompt, (i <= j < i + remaining)%nat ->
                      exists e, try_once j prompt = inl e) ->
    exists prompts,
      run remaining i error_msg = (Thrown exhausted, prompts) /\
      length prompts = remaining.
Proof.
  induction remaining as [|remaining IH]; intros i error_msg Hfail.
  - exists []; split; reflexivity.
  - destruct (Hfail i (prompt_of error_msg)) as [e He]; [lia|].
    destruct (IH (S i) (feedback e)) as [prompts [E Hlen]].
    { intros j prompt Hj. apply Hfail; lia. }
    exists (prompt_of error_msg :: prompts).
    erewrite attempts_failed by exact He. rewrite E. simpl. split; [reflexivity | lia].
Qed.

(** The only exception that leaves the loop is the final one. *)
Lemma attempts_thrown (remaining : nat) :
  forall i error_msg m prompts,
    run remaining i error_msg = (Thrown m, prompts) ->
    m = exhausted /\ length prompts = remaining.
Proof.
  induction remaining as [|remaining IH]; intros i error_msg m prompts H.
  - inversion H; split; reflexivity.
  - destruct (try_once i (prompt_of error_msg)) as [e | outputs] eqn:E.
    + erewrite attempts_failed in H by exact E.
      destruct (run remaining (S i) (feedback e)) as [r ps] eqn:Erun.
      simpl in H. inversion H; subst.
      destruct (IH _ _ _ _ Erun) as [-> Hlen]. simpl. split; [reflexivity | lia].
    + erewrite attempts_succeeded in H by exact E. discriminate.
Qed.

(** A returned value is the result of one attempt, the last one made. *)
Lemma attempts_returned (remaining : nat) :
  forall i error_msg outputs prompts,
    run remaining i error_msg = (Returned outputs, prompts) ->
    exists j last_msg,
      (i <= j < i + remaining)%nat /\
      try_once j (prompt_of last_msg) = inr outputs /\
      nth_error prompts (j - i) = Some (prompt_of last_msg) /\
      length prompts = S (j - i).
Proof.
  induction remaining as [|remaining IH]; intros i error_msg outputs prompts H.
  - discriminate.
  - destruct (try_once i (prompt_of error_msg)) as [e | outs] eqn:E.
    + erewrite attempts_failed in H by exact E.
      destruct (run remaining (S i) (feedback e)) as [r ps] eqn:Erun.
      simpl in H. inversion H; subst.
      destruct (IH _ _ _ _ Erun) as [j [last_msg [Hj [Hok [Hnth Hlen]]]]].
      exists j, last_msg. repeat split; try lia; auto.
      * replace (j - i)%nat with (S (j - S i)) by lia. exact Hnth.
      * simpl. rewrite Hlen. lia.
    + erewrite attempts_succeeded in H by exact E. inversion H; subst.
      exists i, error_msg. rewrite Nat.sub_diag. repeat split; auto; lia.
Qed.

(** The prompts of a run: the first carries the initial feedback text,
    and each later one carries the feedback of the attempt just before
    it and of no other. *)
Lemma attempts_prompts (remaining : nat) :
  forall i error_msg,
    (forall p, nth_error (snd (run remaining i error_msg)) 0 = Some p ->
               p = prompt_of error_msg) /\
    (forall k p q,
        nth_error (snd (run remaining i error_msg)) k = Some p ->
        nth_error (snd (run remaining i error_msg)) (S k) = Some q ->
        exists e, try_once (i + k) p = inl e /\ q = prompt_of (feedback e)).
Proof.
  induction remaining as [|remaining IH]; intros i error_msg.
  - simpl. split; [discriminate|]. intros [|k]; discriminate.
  - destruct (try_once i (prompt_of error_msg)) as [e | outs] eqn:E.
    + erewrite attempts_failed by exact E. simpl snd.
      destruct (IH (S i) (feedback e)) as [Hfirst Hnext].
      split.
      * intros p Hp. simpl in Hp. inversion Hp; reflexivity.
      * intros [|k] p q Hp Hq.
        -- simpl in Hp. inversion Hp; subst p.
           exists e. rewrite Nat.add_0_r. split; [exact E|].
           apply Hfirst. exact Hq.
        -- replace (i + S k)%nat with (S i + k)%nat by lia.
           apply Hnext; assumption.
    + erewrite attempts_succeeded by exact E. simpl snd. split.
      * intros p Hp. simpl in Hp. inversion Hp; reflexivity.
      * intros [|[|k]] p q Hp Hq; discriminate.
Qed.

Lemma build_prompt_includes (error_msg : jstring) :
  includes error_msg (prompt_of error_msg) = true.
Proof.
  apply includes_iff. unfold build_prompt.
  eexists (system_prompt ++ format_instructions user_prompt output_format), _.
  rewrite <- !app_assoc. reflexivity.
Qed.

(** For a sequence of inputs the prompt asks for one object for each
    input. *)
Lemma build_prompt_list_input (items : list jstring) (error_msg : jstring) :
  includes (js "Return an array of JSON objects " ++ EN_DASH
            ++ js " one for each user input.")
           (build_prompt system_prompt (inr items) output_format error_msg) = true.
Proof.
  apply includes_iff. unfold build_prompt, format_instructions, list_input.
  eexists (system_prompt ++ LF ++ LF
           ++ js "ONLY return a valid JSON object following this shape: "
           ++ JSON_stringify (format_value output_format)
           ++ js "." ++ LF ++ js "Do not wrap the JSON inside code blocks."
           ++ LF ++ js "Do not use single quotes."
           ++ LF ++ js "Avoid trailing commas."
           ++ LF ++ js "Return ONLY raw valid JSON with NO explanations, NO markdown, and NO comments."
           ++ LF ++ LF), _.
  rewrite <- !app_assoc. reflexivity.
Qed.

(** What a successful attempt returns: the reply, cleaned, parsed and
    validated item by item. *)
Lemma attempt_returned (i : nat) (prompt : jstring) (outputs : list val) :
  try_once i prompt = inr outputs ->
  exists text jsonMatch parsed,
    provider i model prompt = inr text /\
    extract_json (trim text) = inr jsonMatch /\
    JSON_parse jsonMatch = inr parsed /\
    validate_outputs output_format default_category output_value_only
                     (as_outputs parsed) = inr outputs.
Proof.
  unfold attempt, bind. intros H.
  destruct (provider i model prompt) as [m | text]; [discriminate|].
  simpl in H.
  destruct (extract_json (trim text)) as [e | jsonMatch] eqn:Hx; [discriminate|].
  destruct (JSON_parse jsonMatch) as [m | parsed] eqn:Hj; [discriminate|].
  simpl in H. exists text, jsonMatch, parsed. repeat split; assumption.
Qed.

End Loop.

End RetryFacts.

(** * The retry bound and the errors of an attempt *)

Module Retry.

(** C1.  When every attempt fails, whatever the error of each attempt
    (provider failure, no JSON found, parse failure, missing key, or a
    type error of the runtime), [strict_output] sends exactly [num_tries]
    prompts to the provider and then throws the one final error; it
    returns nothing. *)
Theorem all_attempts_fail_then_exhausted :
  forall (R : Runtime) provider system_prompt user_prompt output_format
         default_category output_value_only model num_tries,
    (0 <= num_tries)%Z ->
    (forall i prompt,
        (Z.of_nat i < num_tries)%Z ->
        exists e, attempt provider output_format default_category
                          output_value_only model i prompt = inl e) ->
    exists prompts,
      strict_output provider system_prompt user_prompt output_format
                    default_category output_value_only model num_tries
      = (Thrown exhausted, prompts) /\
      Z.of_nat (length prompts) = num_tries.
Proof.
  intros R provider system_prompt user_prompt output_format default_category
         output_value_only model num_tries Hpos Hfail.
  unfold strict_output.
  destruct (RetryFacts.attempts_all_fail provider system_prompt user_prompt
              output_format default_category output_value_only model
              (Z.to_nat num_tries) 0 [])
    as [prompts [E Hlen]].
  - intros j prompt Hj. apply Hfail. lia.
  - exists prompts. split; [exact E | lia].
Qed.

Lemma all_attempts_fail_then_exhausted_witness :
  exists prompts,
    strict_output (R := Reference.runtime) (Examples.always Examples.prose)
                  Examples.quiz_master (inl (js "France")) Examples.answer_format
                  [] false Examples.gemini 3
    = (Thrown exhausted, prompts) /\
    Z.of_nat (length prompts) = 3%Z.
Proof.
  apply all_attempts_fail_then_exhausted.
  - lia.
  - intros i prompt _. exists NoJsonFoundError. reflexivity.
Defined.

(** No error of an attempt leaves the call: an exception of
    [strict_output] carries the final message, and by then the provider
    was called once for every iteration of the loop. *)
Lemma only_exhaustion_escapes :
  forall (R : Runtime) provider system_prompt user_prompt output_format
         default_category output_value_only model num_tries m prompts,
    strict_output provider system_prompt user_prompt output_format
                  default_category output_value_only model num_tries
    = (Thrown m, prompts) ->
    m = exhausted /\ length prompts = Z.to_nat num_tries.
Proof.
  intros. eapply RetryFacts.attempts_thrown; eassumption.
Qed.

(** C8.  With [num_tries] zero or negative the loop body never runs: no
    prompt is built, the provider is not called, and the call throws the
    final error at once. *)
Theorem no_attempt_without_tries :
  forall (R : Runtime) provider system_prompt user_prompt output_format
         default_category output_value_only model num_tries,
    (num_tries <= 0)%Z ->
    strict_output provider system_prompt user_prompt output_format
                  default_category output_value_only model num_tries
    = (Thrown exhausted, []).
Proof.
  intros R provider system_prompt user_prompt output_format default_category
         output_value_only model num_tries H.
  unfold strict_output.
  replace (Z.to_nat num_tries) with 0%nat by lia. reflexivity.
Qed.

Lemma no_attempt_without_tries_witness :
  strict_output (R := Reference.runtime) (Examples.always Examples.paris)
                Examples.quiz_master (inl (js "France")) Examples.answer_format
                [] false Examples.gemini (-2)
  = (Thrown exhausted, []).
Proof.
  apply no_attempt_without_tries. lia.
Defined.

End Retry.

(** * Validation of the records *)

Module Validation.
Import StringFacts.

(** C2.  For a record and a key that the shape declares with a closed
    set of allowed values: the field of the accepted record is the value
    that the rule of the specification gives, which looks at the first
    element only when the value is a sequence; in particular it is the
    default category when that value is not allowed and the default
    category is not empty. *)
Theorem enum_field_resolves_to_default :
  forall (R : Runtime) output_format default_category output_value_only
         props key options v element,
    NoDup (map fst output_format) ->
    In (key, inr options) output_format ->
    own_get key props = Some v ->
    validate_item output_format default_category output_value_only (VObj props)
    = inr element ->
    exists props',
      element = VObj props' /\
      own_get key props' = Some (resolve_enum default_category options v) /\
      (Array_includes options (if Array_isArray v then first_element v else v) = false ->
       default_category <> [] ->
       own_get key props' = Some (VStr default_category)).
Proof.
  intros R output_format default_category output_value_only props key options v
         element Hnd Hin Hv H.
  apply ValidateFacts.validate_item_keys in H.
  destruct (ValidateFacts.validate_keys_accepted _ _ _ _ H) as [props' [-> _]].
  pose proof (ValidateFacts.validate_keys_enum _ _ _ _ _ _ _ Hnd Hin Hv H) as Hres.
  exists props'. split; [reflexivity|]. split; [exact Hres|].
  intros Hout Hd. rewrite Hres. unfold resolve_enum. rewrite Hout.
  destruct (eqb default_category []) eqn:E.
  - apply eqb_eq in E. contradiction.
  - reflexivity.
Qed.

Lemma enum_field_resolves_to_default_witness :
  exists props' : list (jstring * value Z),
    VObj [(js "difficulty", VStr (js "easy"))] = VObj props' /\
    own_get (R := Reference.runtime) (js "difficulty") props'
    = Some (VStr (js "easy")).
Proof.
  destruct (enum_field_resolves_to_default Reference.runtime
              Examples.difficulty_format (js "easy") false
              Examples.medium_then_hard (js "difficulty") [js "easy"; js "hard"]
              (VArr [VStr (js "medium"); VStr (js "hard")])
              (VObj [(js "difficulty", VStr (js "easy"))]))
    as [props' [E [_ H]]].
  - simpl. constructor; [intros [] | constructor].
  - simpl. left. reflexivity.
  - reflexivity.
  - reflexivity.
  - exists props'. split; [exact E|]. apply H; [reflexivity | discriminate].
Defined.





(** C9.  With [output_value_only] false, every returned record is a
    validated item of the parsed reply, in which no key was removed and
    every field that the shape does not declare with allowed values,
    declared or not, has the value it had in the reply.  A record is
    refused only for a key of the shape that it lacks, never for a key it
    has. *)
Theorem other_fields_returned_unchanged :
  forall (R : Runtime) provider system_prompt user_prompt output_format
         default_category model num_tries,
    (forall outputs prompts,
        strict_output provider system_prompt user_prompt output_format
                      default_category false model num_tries
        = (Returned outputs, prompts) ->
        exists i prompt text jsonMatch parsed,
          provider i model prompt = inr text /\
          extract_json (trim text) = inr jsonMatch /\
          JSON_parse jsonMatch = inr parsed /\
          Forall2
            (fun item element =>
               forall props,
                 item = VObj props ->
                 exists props',
                   element = VObj props' /\
                   (exists extra, map fst props' = map fst props ++ extra) /\
                   (forall key,
                       (forall options, ~ In (key, inr options) output_format) ->
                       own_get key props' = own_get key props))
            (as_outputs parsed) outputs) /\
    (forall props e,
        validate_item output_format default_category false (VObj props) = inl e ->
        exists key item,
          e = SchemaValidationError key item /\
          In key (map fst output_format) /\
          has_property key props = false).
Proof.
  intros R provider system_prompt user_prompt output_format default_category
         model num_tries.
  split.
  - intros outputs prompts H.
    destruct (RetryFacts.attempts_returned _ _ _ _ _ _ _ _ _ _ _ _ H)
      as [i [last_msg [_ [Hok _]]]].
    destruct (RetryFacts.attempt_returned _ _ _ _ _ _ _ _ Hok)
      as [text [jsonMatch [parsed [Hp [Hx [Hj Hv]]]]]].
    exists i, (build_prompt system_prompt user_prompt output_format last_msg),
      text, jsonMatch, parsed.
    repeat split; auto.
    apply ValidateFacts.validate_outputs_each in Hv.
    eapply Forall2_impl; [|exact Hv].
    intros item element Hitem props ->.
    apply ValidateFacts.validate_item_keys in Hitem.
    destruct (ValidateFacts.validate_keys_accepted _ _ _ _ Hitem)
      as [props' [-> [_ [Hframe [Hkeys _]]]]].
    exists props'. repeat split; auto.
  - intros props e H.
    rewrite ValidateFacts.validate_item_object in H.
    destruct (ValidateFacts.validate_keys_rejected _ _ _ _ H)
      as [key [f [item [Hin [Hk [_ ->]]]]]].
    exists key, item. repeat split; auto.
    apply (in_map fst) in Hin. exact Hin.
Qed.

Lemma other_fields_returned_unchanged_witness :
  exists i prompt text jsonMatch parsed,
    Examples.always Examples.with_source i Examples.gemini prompt = inr text /\
    extract_json (R := Reference.runtime) (trim text) = inr jsonMatch /\
    JSON_parse (Runtime := Reference.runtime) jsonMatch = inr parsed /\
    Forall2
      (fun item element =>
         forall props,
           item = VObj props ->
           exists props',
             element = VObj props' /\
             (exists extra, map fst props' = map fst props ++ extra) /\
             (forall key,
                 (forall options, ~ In (key, inr options) Examples.quiz_format) ->
                 own_get (R := Reference.runtime) key props' = own_get key props))
      (as_outputs (R := Reference.runtime) parsed)
      [VObj [(js "question", VStr (js "Capital of France?"));
             (js "answer", VStr (js "Paris"));
             (js "source", VStr (js "atlas"))]].
Proof.
  apply (proj1 (other_fields_returned_unchanged Reference.runtime
                  (Examples.always Examples.with_source) Examples.quiz_master
                  (inl (js "France")) Examples.quiz_format [] Examples.gemini 3)
           _ [build_prompt (R := Reference.runtime) Examples.quiz_master
                (inl (js "France")) Examples.quiz_format []]).
  reflexivity.
Defined.

(** C4, at the input of the specification's example.  With
    [output_value_only] true, the shape [{answer: ...}] and the reply
    [{answer: Paris}], the call returns the record itself: line 106
    rebinds the loop variable and leaves the array [outputs] as it was. *)
Theorem values_only_returns_the_record :
  fst (strict_output (R := Reference.runtime) (Examples.always Examples.paris)
         Examples.quiz_master (inl (js "What is the capital of France?"))
         Examples.answer_format [] true Examples.gemini 3)
  = Returned [VObj [(js "answer", VStr (js "Paris"))]] /\
  fst (strict_output (R := Reference.runtime) (Examples.always Examples.paris)
         Examples.quiz_master (inl (js "What is the capital of France?"))
         Examples.answer_format [] true Examples.gemini 3)
  <> Returned [VStr (js "Paris")].
Proof.
  assert (E : fst (strict_output (R := Reference.runtime)
                     (Examples.always Examples.paris) Examples.quiz_master
                     (inl (js "What is the capital of France?"))
                     Examples.answer_format [] true Examples.gemini 3)
              = Returned [VObj [(js "answer", VStr (js "Paris"))]])
    by reflexivity.
  split; [exact E|]. rewrite E. discriminate.
Qed.

(** On a plain object the flag has no effect at all. *)
Lemma values_only_is_ignored :
  forall (R : Runtime) output_format default_category props,
    validate_item output_format default_category true (VObj props)
    = validate_item output_format default_category false (VObj props).
Proof.
  intros. rewrite !ValidateFacts.validate_item_object. reflexivity.
Qed.

End Validation.

(** * The feedback text of the prompts *)

Module Feedback.
Import StringFacts.

(** C6, as the code has it.  After a failed attempt, [error_msg] is set to
    a marker with the message of that attempt's error, in place of what
    it held: the first prompt carries no feedback, and the prompt of each
    later attempt carries the marker of the attempt just before it, and
    is otherwise the same text. *)
Theorem prompt_carries_the_latest_feedback :
  forall (R : Runtime) provider system_prompt user_prompt output_format
         default_category output_value_only model num_tries,
    (forall p,
        nth_error (snd (strict_output provider system_prompt user_prompt
                          output_format default_category output_value_only
                          model num_tries)) 0 = Some p ->
        p = build_prompt system_prompt user_prompt output_format []) /\
    (forall k p q,
        nth_error (snd (strict_output provider system_prompt user_prompt
                          output_format default_category output_value_only
                          model num_tries)) k = Some p ->
        nth_error (snd (strict_output provider system_prompt user_prompt
                          output_format default_category output_value_only
                          model num_tries)) (S k) = Some q ->
        exists e,
          attempt provider output_format default_category output_value_only
                  model k p = inl e /\
          q = build_prompt system_prompt user_prompt output_format (feedback e) /\
          includes (feedback e) q = true).
Proof.
  intros R provider system_prompt user_prompt output_format default_category
         output_value_only model num_tries.
  unfold strict_output.
  destruct (RetryFacts.attempts_prompts provider system_prompt user_prompt
              output_format default_category output_value_only model
              (Z.to_nat num_tries) 0 []) as [Hfirst Hnext].
  split; [exact Hfirst|].
  intros k p q Hp Hq.
  destruct (Hnext k p q Hp Hq) as [e [He ->]].
  exists e. repeat split; auto.
  apply RetryFacts.build_prompt_includes.
Qed.

Section OnTheReferenceRuntime.
#[local] Existing Instance Reference.runtime.

Lemma prompt_carries_the_latest_feedback_witness :
exists e,
  attempt Examples.flaky Examples.answer_format [] false Examples.gemini 1
          (build_prompt Examples.quiz_master (inl (js "France"))
             Examples.answer_format
             (feedback (ProviderCallError (js "quota exceeded"))))
  = inl e /\
  build_prompt Examples.quiz_master (inl (js "France")) Examples.answer_format
               (feedback NoJsonFoundError)
  = build_prompt Examples.quiz_master (inl (js "France")) Examples.answer_format
                 (feedback e) /\
  includes (feedback e)
           (build_prompt Examples.quiz_master (inl (js "France"))
              Examples.answer_format (feedback NoJsonFoundError)) = true.
Proof.
apply (proj2 (prompt_carries_the_latest_feedback Reference.runtime Examples.flaky
                Examples.quiz_master (inl (js "France")) Examples.answer_format
                [] false Examples.gemini 3) 1%nat).
- reflexivity.
- reflexivity.
Defined.

(** C6 as stated fails: the provider fails on the first call with the
  message [quota exceeded] and answers the next two calls with prose.
  The second prompt carries the marker of the first failure; the third
  prompt carries the marker of the second failure only. *)
Lemma earlier_feedback_is_overwritten :
exists p1 p2 p3 result,
  strict_output (R := Reference.runtime) Examples.flaky Examples.quiz_master
                (inl (js "France")) Examples.answer_format [] false
                Examples.gemini 3
  = (result, [p1; p2; p3]) /\
  attempt (R := Reference.runtime) Examples.flaky Examples.answer_format [] false
          Examples.gemini 0 p1
  = inl (ProviderCallError (js "quota exceeded")) /\
  attempt (R := Reference.runtime) Examples.flaky Examples.answer_format [] false
          Examples.gemini 1 p2
  = inl NoJsonFoundError /\
  includes (feedback (R := Reference.runtime)
              (ProviderCallError (js "quota exceeded"))) p2 = true /\
  includes (feedback (R := Reference.runtime) NoJsonFoundError) p3 = true /\
  includes (feedback (R := Reference.runtime)
              (ProviderCallError (js "quota exceeded"))) p3 = false /\
  includes (js "quota exceeded") p3 = false.
Proof.
exists (build_prompt (R := Reference.runtime) Examples.quiz_master
          (inl (js "France")) Examples.answer_format []),
  (build_prompt (R := Reference.runtime) Examples.quiz_master
     (inl (js "France")) Examples.answer_format
     (feedback (ProviderCallError (js "quota exceeded")))),
  (build_prompt (R := Reference.runtime) Examples.quiz_master
     (inl (js "France")) Examples.answer_format (feedback NoJsonFoundError)),
  (Thrown exhausted).
split; [reflexivity|]. split; [reflexivity|]. split; [reflexivity|].
repeat split; vm_compute; reflexivity.
Qed.

End OnTheReferenceRuntime.

End Feedback.

(** * The number and the order of the returned records *)

Module Ordering.
Import StringFacts.

(** C7, as the code has it.  A successful call returns the validated
    items of the JSON value parsed from the reply of its last attempt:
    as many records as that value has elements (one when it is not an
    array), in the order of that value.  The number of input items is
    not compared with it; for a sequence of inputs the prompt asks the
    provider for one object for each input. *)
Theorem returned_records_follow_the_reply :
  forall (R : Runtime) provider system_prompt user_prompt output_format
         default_category output_value_only model num_tries outputs prompts,
    strict_output provider system_prompt user_prompt output_format
                  default_category output_value_only model num_tries
    = (Returned outputs, prompts) ->
    exists i prompt text jsonMatch parsed,
      provider i model prompt = inr text /\
      extract_json (trim text) = inr jsonMatch /\
      JSON_parse jsonMatch = inr parsed /\
      length outputs = length (as_outputs parsed) /\
      Forall2
        (fun item element =>
           validate_item output_format default_category output_value_only item
           = inr element)
        (as_outputs parsed) outputs /\
      (forall items,
          user_prompt = inr items ->
          includes (js "Return an array of JSON objects " ++ EN_DASH
                    ++ js " one for each user input.") prompt = true).
Proof.
  intros R provider system_prompt user_prompt output_format default_category
         output_value_only model num_tries outputs prompts H.
  destruct (RetryFacts.attempts_returned _ _ _ _ _ _ _ _ _ _ _ _ H)
    as [i [last_msg [_ [Hok _]]]].
  destruct (RetryFacts.attempt_returned _ _ _ _ _ _ _ _ Hok)
    as [text [jsonMatch [parsed [Hp [Hx [Hj Hv]]]]]].
  exists i, (build_prompt system_prompt user_prompt output_format last_msg),
    text, jsonMatch, parsed.
  apply ValidateFacts.validate_outputs_each in Hv.
  repeat split; auto.
  - symmetry. eapply Forall2_length. exact Hv.
  - intros items ->. apply RetryFacts.build_prompt_list_input.
Qed.

Section OnTheReferenceRuntime.
#[local] Existing Instance Reference.runtime.

Lemma returned_records_follow_the_reply_witness :
exists i prompt text jsonMatch parsed,
  Examples.always Examples.one_question i Examples.gemini prompt = inr text /\
  extract_json (trim text) = inr jsonMatch /\
  JSON_parse jsonMatch = inr parsed /\
  length (as_outputs parsed) = 1%nat.
Proof.
destruct (returned_records_follow_the_reply Reference.runtime
            (Examples.always Examples.one_question) Examples.quiz_master
            (inr [js "France"; js "Spain"]) Examples.quiz_format [] false
            Examples.gemini 3
            [VObj [(js "question", VStr (js "What is the capital of France?"));
                   (js "answer", VStr (js "Paris"))]]
            [build_prompt Examples.quiz_master (inr [js "France"; js "Spain"])
               Examples.quiz_format []])
  as [i [prompt [text [jsonMatch [parsed [Hp [Hx [Hj [Hlen _]]]]]]]]].
- reflexivity.
- exists i, prompt, text, jsonMatch, parsed. repeat split; auto.
Defined.

(** C7 as stated fails: two input items, a reply with one object, and the
  call succeeds with one record. *)
Lemma one_record_for_two_inputs :
fst (strict_output (R := Reference.runtime) (Examples.always Examples.one_question)
       Examples.quiz_master (inr [js "France"; js "Spain"])
       Examples.quiz_format [] false Examples.gemini 3)
= Returned [VObj [(js "question", VStr (js "What is the capital of France?"));
                  (js "answer", VStr (js "Paris"))]] /\
length [VObj (number := Z)
          [(js "question", VStr (js "What is the capital of France?"));
           (js "answer", VStr (js "Paris"))]]
<> length [js "France"; js "Spain"].
Proof.
split.
- reflexivity.
- simpl. discriminate.
Qed.

End OnTheReferenceRuntime.

End Ordering.

(** * The clean-up of the reply and the extraction of the JSON text *)

Module Sanitization.
Import StringFacts.

(** C5, as the code has it.  The clean-up leaves no code-fence marker,
    turns every single quote into a double quote and drops every comma
    that is followed by white space and a closing brace or bracket,
    together with that white space.  The extraction then takes the text
    from the first opening brace or bracket that has a closer of its kind
    somewhere after it, up to the last such closer of the whole text;
    nesting is not looked at.  When no opener has a closer after it, the
    attempt fails with the no-JSON-found error, and with no other.  The
    fenced reply of the specification's example is cleaned to a JSON text
    that parses. *)
Theorem extraction_runs_to_the_last_closer :
  forall (R : Runtime) (res : jstring),
    includes (js "```") (strip_fences res) = false /\
    replace_quotes res = map (fun c => if c =? QUOTE then DQUOTE else c) res /\
    (forall a ws c b,
        forallb is_white_space ws = true ->
        is_closer c = true ->
        remove_trailing_commas (a ++ COMMA :: ws ++ c :: b)
        = remove_trailing_commas a ++ c :: remove_trailing_commas b) /\
    (forall jsonMatch,
        extract_json res = inr jsonMatch ->
        exists before opener body closer after,
          clean_up res = before ++ opener :: body ++ closer :: after /\
          jsonMatch = opener :: body ++ [closer] /\
          In (opener, closer) brackets /\
          ~ In closer after /\
          (forall p o q c,
              before = p ++ o :: q ->
              In (o, c) brackets ->
              ~ In c (q ++ opener :: body ++ closer :: after))) /\
    (extract_json res = inl NoJsonFoundError <-> no_span (clean_up res)) /\
    (forall e, extract_json res = inl e -> e = NoJsonFoundError) /\
    extract_json (R := Reference.runtime) Examples.fenced_reply = inr (jq "{'a': 1}") /\
    JSON_parse (Runtime := Reference.runtime) (jq "{'a': 1}")
    = inr (VObj [(js "a", VNum 1%Z)]).
Proof.
  intros R res.
  split; [apply SanitizeFacts.strip_fences_no_fence|].
  split; [apply SanitizeFacts.replace_quotes_map|].
  split.
  { intros a ws c b Hws Hc.
    apply (SanitizeFacts.remove_trailing_commas_app (length a)); auto. }
  unfold extract_json.
  destruct (json_match (clean_up res)) as [m|] eqn:E.
  - split.
    { intros jsonMatch H. inversion H; subst.
      apply SanitizeFacts.json_match_some. exact E. }
    split.
    { split; [discriminate|]. intros H.
      apply SanitizeFacts.json_match_none in H. congruence. }
    split; [intros e H; discriminate|].
    split; reflexivity.
  - split; [intros jsonMatch H; discriminate|].
    split.
    { split; [|reflexivity]. intros _. apply SanitizeFacts.json_match_none. exact E. }
    split; [intros e H; inversion H; reflexivity|].
    split; reflexivity.
Qed.

Section OnTheReferenceRuntime.
#[local] Existing Instance Reference.runtime.

Lemma extraction_runs_to_the_last_closer_witness :
exists before opener body closer after,
  clean_up Examples.two_objects = before ++ opener :: body ++ closer :: after /\
  jq "{'a': 1} and {'b': 2}" = opener :: body ++ [closer] /\
  In (opener, closer) brackets /\
  ~ In closer after.
Proof.
destruct (proj1 (proj2 (proj2 (proj2
            (extraction_runs_to_the_last_closer Reference.runtime
               Examples.two_objects))))
            (jq "{'a': 1} and {'b': 2}"))
  as [before [opener [body [closer [after [H1 [H2 [H3 [H4 _]]]]]]]]].
- reflexivity.
- exists before, opener, body, closer, after. repeat split; auto.
Defined.

(** C5 as stated fails: in a reply with two objects the first balanced
  object is the first of the two, and the extraction takes the text
  from the first opening brace to the last closing brace, which is not
  a JSON text. *)
Lemma the_first_balanced_object_is_not_extracted :
first_balanced (clean_up Examples.two_objects) = Some (jq "{'a': 1}") /\
extract_json Examples.two_objects = inr (jq "{'a': 1} and {'b': 2}") /\
jq "{'a': 1} and {'b': 2}" <> jq "{'a': 1}" /\
JSON_parse (jq "{'a': 1} and {'b': 2}") = inl Reference.syntax_error /\
JSON_parse (jq "{'a': 1}") = inr (VObj [(js "a", VNum 1%Z)]).
Proof.
split; [reflexivity|]. split; [reflexivity|].
split; [vm_compute; discriminate|]. split; reflexivity.
Qed.

End OnTheReferenceRuntime.

End Sanitization.


(** * Further properties of the retry loop *)

Module RetryBehaviour.
Import StringFacts.

Section Loop.
Context {R : Runtime}.
Variable provider : nat -> jstring -> jstring -> jstring + jstring.
Variable system_prompt : jstring.
Variable user_prompt : jstring + list jstring.
Variable output_format : OutputFormat.
Variable default_category : jstring.
Variable output_value_only : bool.
Variable model : jstring.

Local Abbreviation try_once :=
  (attempt provider output_format default_category output_value_only model).
Local Abbreviation prompt_of := (build_prompt system_prompt user_prompt output_format).
Local Abbreviation run :=
  (attempts provider system_prompt user_prompt output_format default_category
            output_value_only model).

(** A run that returns made its attempts in order, all failed but the
    last, and stopped there. *)
Lemma attempts_first_success (remaining : nat) :
  forall i error_msg outputs prompts,
    run remaining i error_msg = (Returned outputs, prompts) ->
    exists n p,
      length prompts = S n /\
      (n < remaining)%nat /\
      nth_error prompts n = Some p /\
      try_once (i + n) p = inr outputs /\
      (forall k q, (k < n)%nat -> nth_error prompts k = Some q ->
                   exists e, try_once (i + k) q = inl e).
Proof.
  induction remaining as [|remaining IH]; intros i error_msg outputs prompts H.
  - discriminate.
  - destruct (try_once i (prompt_of error_msg)) as [e | outs] eqn:E.
    + erewrite RetryFacts.attempts_failed in H by exact E.
      destruct (run remaining (S i) (feedback e)) as [r ps] eqn:Erun.
      simpl in H. inversion H; subst.
      destruct (IH _ _ _ _ Erun) as [n [p [Hlen [Hn [Hnth [Hok Hbefore]]]]]].
      exists (S n), p. repeat split.
      * simpl. rewrite Hlen. reflexivity.
      * lia.
      * exact Hnth.
      * replace (i + S n)%nat with (S i + n)%nat by lia. exact Hok.
      * intros [|k] q Hk Hq.
        -- simpl in Hq. inversion Hq; subst q. exists e.
           rewrite Nat.add_0_r. exact E.
        -- replace (i + S k)%nat with (S i + k)%nat by lia.
           apply (Hbefore k q); [lia | exact Hq].
    + erewrite RetryFacts.attempts_succeeded in H by exact E.
      inversion H; subst.
      exists 0%nat, (prompt_of error_msg). repeat split.
      * lia.
      * rewrite Nat.add_0_r. exact E.
      * intros k q Hk. lia.
Qed.

(** More iterations do not change a run that returns. *)
Lemma attempts_more_tries (remaining : nat) :
  forall extra i error_msg outputs prompts,
    run remaining i error_msg = (Returned outputs, prompts) ->
    run (remaining + extra) i error_msg = (Returned outputs, prompts).
Proof.
  induction remaining as [|remaining IH]; intros extra i error_msg outputs prompts H.
  - discriminate.
  - change (S remaining + extra)%nat with (S (remaining + extra)).
    destruct (try_once i (prompt_of error_msg)) as [e | outs] eqn:E.
    + erewrite RetryFacts.attempts_failed in H by exact E.
      erewrite RetryFacts.attempts_failed by exact E.
      destruct (run remaining (S i) (feedback e)) as [r ps] eqn:Erun.
      simpl in H. inversion H; subst.
      rewrite (IH extra _ _ _ _ Erun). reflexivity.
    + erewrite RetryFacts.attempts_succeeded in H by exact E.
      erewrite RetryFacts.attempts_succeeded by exact E. exact H.
Qed.

(** A run that throws made every iteration, and every attempt failed. *)
Lemma attempts_thrown_all_failed (remaining : nat) :
  forall i error_msg m prompts,
    run remaining i error_msg = (Thrown m, prompts) ->
    forall k q, nth_error prompts k = Some q ->
                exists e, try_once (i + k) q = inl e.
Proof.
  induction remaining as [|remaining IH]; intros i error_msg m prompts H k q Hq.
  - inversion H; subst. destruct k; discriminate.
  - destruct (try_once i (prompt_of error_msg)) as [e | outs] eqn:E.
    + erewrite RetryFacts.attempts_failed in H by exact E.
      destruct (run remaining (S i) (feedback e)) as [r ps] eqn:Erun.
      simpl in H. inversion H; subst.
      destruct k as [|k].
      * simpl in Hq. inversion Hq; subst q. exists e.
        rewrite Nat.add_0_r. exact E.
      * replace (i + S k)%nat with (S i + k)%nat by lia.
        apply (IH _ _ _ _ Erun k q Hq).
    + erewrite RetryFacts.attempts_succeeded in H by exact E. discriminate.
Qed.

(** Every prompt of a run is the same text around some feedback. *)
Lemma attempts_prompt_shape (remaining : nat) :
  forall i error_msg p,
    In p (snd (run remaining i error_msg)) ->
    exists msg, p = prompt_of msg.
Proof.
  induction remaining as [|remaining IH]; intros i error_msg p Hin.
  - destruct Hin.
  - destruct (try_once i (prompt_of error_msg)) as [e | outs] eqn:E.
    + erewrite RetryFacts.attempts_failed in Hin by exact E.
      simpl in Hin. destruct Hin as [<- | Hin]; [eauto|].
      apply (IH _ _ _ Hin).
    + erewrite RetryFacts.attempts_succeeded in Hin by exact E.
      simpl in Hin. destruct Hin as [<- | []]. eauto.
Qed.
End Loop.

(** X1.  A call that returns stops at its first successful attempt: the
    prompts sent number at most [num_tries], the last one was answered
    with the returned records, and every attempt before it failed. *)
Theorem returns_at_the_first_success :
  forall (R : Runtime) provider system_prompt user_prompt output_format
         default_category output_value_only model num_tries outputs prompts,
    strict_output provider system_prompt user_prompt output_format
                  default_category output_value_only model num_tries
    = (Returned outputs, prompts) ->
    exists n p,
      length prompts = S n /\
      (Z.of_nat (S n) <= num_tries)%Z /\
      nth_error prompts n = Some p /\
      attempt provider output_format default_category output_value_only model n p
      = inr outputs /\
      (forall k q,
          (k < n)%nat ->
          nth_error prompts k = Some q ->
          exists e, attempt provider output_format default_category
                            output_value_only model k q = inl e).
Proof.
  intros R provider system_prompt user_prompt output_format default_category
         output_value_only model num_tries outputs prompts H.
  unfold strict_output in H.
  destruct (attempts_first_success _ _ _ _ _ _ _ _ _ _ _ _ H)
    as [n [p [Hlen [Hn [Hnth [Hok Hbefore]]]]]].
  exists n, p. repeat split; auto. lia.
Qed.

(** X2.  Raising [num_tries] never changes a call that returns: the
    same records come back after the same prompts. *)
Theorem more_tries_keep_a_success :
  forall (R : Runtime) provider system_prompt user_prompt output_format
         default_category output_value_only model num_tries more outputs prompts,
    (num_tries <= more)%Z ->
    strict_output provider system_prompt user_prompt output_format
                  default_category output_value_only model num_tries
    = (Returned outputs, prompts) ->
    strict_output provider system_prompt user_prompt output_format
                  default_category output_value_only model more
    = (Returned outputs, prompts).
Proof.
  intros R provider system_prompt user_prompt output_format default_category
         output_value_only model num_tries more outputs prompts Hle H.
  unfold strict_output in *.
  replace (Z.to_nat more)
    with (Z.to_nat num_tries + (Z.to_nat more - Z.to_nat num_tries))%nat by lia.
  apply attempts_more_tries. exact H.
Qed.

(** X3.  A call that throws has sent one prompt for every iteration of
    the loop, every one of its attempts failed, and the message thrown is
    the final one: the error of an attempt is never what the caller
    sees. *)
Theorem throws_only_after_every_attempt_failed :
  forall (R : Runtime) provider system_prompt user_prompt output_format
         default_category output_value_only model num_tries m prompts,
    strict_output provider system_prompt user_prompt output_format
                  default_category output_value_only model num_tries
    = (Thrown m, prompts) ->
    m = exhausted /\
    Z.of_nat (length prompts) = Z.max 0 num_tries /\
    (forall k q,
        nth_error prompts k = Some q ->
        exists e, attempt provider output_format default_category
                          output_value_only model k q = inl e).
Proof.
  intros R provider system_prompt user_prompt output_format default_category
         output_value_only model num_tries m prompts H.
  unfold strict_output in H.
  destruct (RetryFacts.attempts_thrown _ _ _ _ _ _ _ _ _ _ _ _ H) as [-> Hlen].
  split; [reflexivity|]. split; [lia|].
  intros k q Hq.
  apply (attempts_thrown_all_failed _ _ _ _ _ _ _ _ _ _ _ _ H k q Hq).
Qed.

Section OnTheReferenceRuntime.
#[local] Existing Instance Reference.runtime.

Lemma returns_at_the_first_success_witness :
  exists n p,
    length [build_prompt Examples.quiz_master (inl (js "France"))
              Examples.answer_format []] = S n /\
    (Z.of_nat (S n) <= 3)%Z /\
    nth_error [build_prompt Examples.quiz_master (inl (js "France"))
                 Examples.answer_format []] n = Some p /\
    attempt (Examples.always Examples.paris) Examples.answer_format [] false
            Examples.gemini n p
    = inr [VObj [(js "answer", VStr (js "Paris"))]].
Proof.
  destruct (returns_at_the_first_success Reference.runtime
              (Examples.always Examples.paris) Examples.quiz_master
              (inl (js "France")) Examples.answer_format [] false Examples.gemini 3
              [VObj [(js "answer", VStr (js "Paris"))]]
              [build_prompt Examples.quiz_master (inl (js "France"))
                 Examples.answer_format []])
    as [n [p [H1 [H2 [H3 [H4 _]]]]]].
  - reflexivity.
  - exists n, p. repeat split; assumption.
Defined.

Lemma more_tries_keep_a_success_witness :
  strict_output (Examples.always Examples.paris) Examples.quiz_master
                (inl (js "France")) Examples.answer_format [] false
                Examples.gemini 10
  = (Returned [VObj [(js "answer", VStr (js "Paris"))]],
     [build_prompt Examples.quiz_master (inl (js "France"))
        Examples.answer_format []]).
Proof.
  apply (more_tries_keep_a_success Reference.runtime
           (Examples.always Examples.paris) Examples.quiz_master
           (inl (js "France")) Examples.answer_format [] false Examples.gemini 1 10).
  - lia.
  - reflexivity.
Defined.

Lemma throws_only_after_every_attempt_failed_witness :
  js "All attempts failed to produce valid structured output." = exhausted /\
  Z.of_nat (length [build_prompt Examples.quiz_master (inl (js "France"))
                      Examples.answer_format [];
                    build_prompt Examples.quiz_master (inl (js "France"))
                      Examples.answer_format (feedback NoJsonFoundError)])
  = Z.max 0 2.
Proof.
  destruct (throws_only_after_every_attempt_failed Reference.runtime
              (Examples.always Examples.prose) Examples.quiz_master
              (inl (js "France")) Examples.answer_format [] false Examples.gemini 2
              (js "All attempts failed to produce valid structured output.")
              [build_prompt Examples.quiz_master (inl (js "France"))
                 Examples.answer_format [];
               build_prompt Examples.quiz_master (inl (js "France"))
                 Examples.answer_format (feedback NoJsonFoundError)])
    as [H1 [H2 _]].
  - reflexivity.
  - split; assumption.
Defined.

End OnTheReferenceRuntime.

End RetryBehaviour.

(** * Further properties of the clean-up and the extraction *)

Module SanitizeBehaviour.
Import StringFacts.

Lemma trim_start_split (s : jstring) :
  exists ws, s = ws ++ trim_start s /\ forallb is_white_space ws = true.
Proof.
  induction s as [|c s [ws [IH Hws]]]; simpl.
  - exists []; split; reflexivity.
  - destruct (is_white_space c) eqn:E.
    + exists (c :: ws). simpl. rewrite E, Hws. split; [congruence | reflexivity].
    + exists []; split; reflexivity.
Qed.

(** Line 61 only drops code units: it adds none. *)
Lemma remove_trailing_commas_subset (n : nat) :
  forall s x, (length s <= n)%nat ->
              In x (remove_trailing_commas s) -> In x s.
Proof.
  induction n as [|n IH]; intros s x Hlen Hin.
  - destruct s; [exact Hin | simpl in Hlen; lia].
  - destruct s as [|c s]; [exact Hin|].
    simpl in Hlen. rewrite SanitizeFacts.remove_trailing_commas_cons in Hin.
    assert (Hcopy : In x (c :: remove_trailing_commas s) -> In x (c :: s)).
    { intros [-> | H]; [left; reflexivity | right; apply IH; [lia | exact H]]. }
    destruct (c =? COMMA); [|auto].
    destruct (trim_start_split s) as [ws [Hs _]].
    pose proof (SanitizeFacts.trim_start_length s) as Hts.
    destruct (trim_start s) as [|d rest]; [auto|].
    destruct (is_closer d); [|auto].
    right. rewrite Hs. apply in_or_app. right.
    destruct Hin as [-> | Hin]; [left; reflexivity|].
    right. apply IH; [simpl in Hts; lia | exact Hin].
Qed.

Lemma replace_quotes_no_quote (s : jstring) : ~ In QUOTE (replace_quotes s).
Proof.
  rewrite SanitizeFacts.replace_quotes_map. intros H.
  apply in_map_iff in H. destruct H as [c [Hc _]].
  destruct (N.eqb_spec c QUOTE) as [E | E]; [discriminate Hc | congruence].
Qed.

(** X5.  The text handed to [JSON.parse] never holds a single quote:
    every one of the reply, also an apostrophe inside a string value, has
    become a double quote. *)
Theorem extracted_text_has_no_single_quote :
  forall (R : Runtime) (res jsonMatch : jstring),
    extract_json res = inr jsonMatch -> ~ In QUOTE jsonMatch.
Proof.
  intros R res jsonMatch H Hin. unfold extract_json in H.
  destruct (json_match (clean_up res)) as [m|] eqn:E; [|discriminate].
  inversion H; subst m.
  destruct (SanitizeFacts.json_match_some _ _ E)
    as [before [opener [body [closer [after [Hclean [Hm _]]]]]]].
  apply (replace_quotes_no_quote (strip_fences res)).
  apply (remove_trailing_commas_subset (length (replace_quotes (strip_fences res))));
    [lia|].
  fold (clean_up res). rewrite Hclean, Hm in *.
  apply in_or_app. right.
  destruct Hin as [-> | Hin]; [left; reflexivity|].
  right. apply in_app_or in Hin. apply in_or_app.
  destruct Hin as [Hin | [<- | []]]; [left; exact Hin | right; left; reflexivity].
Qed.

Lemma up_to_last_app (closer : code_unit) (body after : jstring) :
  ~ In closer after ->
  up_to_last closer (body ++ closer :: after) = Some (body ++ [closer]).
Proof.
  intros Hn. induction body as [|c body IH]; simpl.
  - apply SanitizeFacts.up_to_last_none in Hn. rewrite Hn, N.eqb_refl. reflexivity.
  - rewrite IH. reflexivity.
Qed.

Lemma json_match_single (before body after : jstring) (opener closer : code_unit) :
  In (opener, closer) brackets ->
  ~ In LBRACE before ->
  ~ In LBRACKET before ->
  ~ In closer after ->
  json_match (before ++ opener :: body ++ closer :: after)
  = Some (opener :: body ++ [closer]).
Proof.
  intros Hb Hbrace Hbracket Hafter.
  induction before as [|c before IH].
  - simpl. apply SanitizeFacts.brackets_opener in Hb.
    destruct Hb as [[-> ->] | [-> ->]]; simpl;
      rewrite (up_to_last_app _ body after Hafter); reflexivity.
  - simpl.
    destruct (N.eqb_spec c LBRACE) as [-> | _]; [exfalso; apply Hbrace; left; reflexivity|].
    destruct (N.eqb_spec c LBRACKET) as [-> | _];
      [exfalso; apply Hbracket; left; reflexivity|].
    apply IH; intros H; [apply Hbrace | apply Hbracket]; right; exact H.
Qed.

(** X6.  Prose around one JSON value is discarded: when the cleaned
    reply is a text without brace or bracket, then a value from its
    opener to its closer, then a text without a closer of that kind, the
    value is what is extracted. *)
Theorem prose_around_one_value_is_discarded :
  forall (R : Runtime) (res before body after : jstring) (opener closer : code_unit),
    In (opener, closer) brackets ->
    clean_up res = before ++ opener :: body ++ closer :: after ->
    ~ In LBRACE before ->
    ~ In LBRACKET before ->
    ~ In closer after ->
    extract_json res = inr (opener :: body ++ [closer]).
Proof.
  intros R res before body after opener closer Hb Hclean H1 H2 H3.
  unfold extract_json. rewrite Hclean.
  rewrite (json_match_single before body after opener closer Hb H1 H2 H3).
  reflexivity.
Qed.

Lemma strip_copies_without_backtick (inner t : jstring) :
  ~ In BACKTICK inner ->
  replace_all match_fence (inner ++ t) = inner ++ replace_all match_fence t.
Proof.
  induction inner as [|c inner IH]; intros Hn; [reflexivity|].
  simpl app. rewrite SanitizeFacts.strip_no_match.
  - rewrite IH; [reflexivity|]. intros H; apply Hn; right; exact H.
  - assert (Hc : c <> BACKTICK) by (intros ->; apply Hn; left; reflexivity).
    SanitizeFacts.not_fence.
Qed.

Lemma remove_trailing_commas_none (s : jstring) :
  (forall a ws c b,
      s = a ++ COMMA :: ws ++ c :: b ->
      forallb is_white_space ws = true -> is_closer c = false) ->
  remove_trailing_commas s = s.
Proof.
  induction s as [|x s IH]; intros H; [reflexivity|].
  rewrite SanitizeFacts.remove_trailing_commas_cons.
  assert (Htail : remove_trailing_commas s = s).
  { apply IH. intros a ws c b Hs. apply (H (x :: a) ws c b). rewrite Hs. reflexivity. }
  rewrite Htail.
  destruct (N.eqb_spec x COMMA) as [-> | _]; [|reflexivity].
  destruct (trim_start_split s) as [ws [Hs Hws]].
  destruct (trim_start s) as [|d rest]; [reflexivity|].
  rewrite (H [] ws d rest); [reflexivity | simpl; rewrite <- Hs; reflexivity | exact Hws].
Qed.

Lemma remove_trailing_commas_length (n : nat) :
  forall s, (length s <= n)%nat ->
            (length (remove_trailing_commas s) <= length s)%nat.
Proof.
  induction n as [|n IH]; intros s Hlen.
  - destruct s; [simpl; lia | simpl in Hlen; lia].
  - destruct s as [|c s]; [simpl; lia|].
    simpl in Hlen. rewrite SanitizeFacts.remove_trailing_commas_cons.
    assert (Hcopy : (length (c :: remove_trailing_commas s) <= length (c :: s))%nat).
    { simpl. pose proof (IH s). lia. }
    destruct (c =? COMMA); [|exact Hcopy].
    pose proof (SanitizeFacts.trim_start_length s) as Hts.
    destruct (trim_start s) as [|d rest]; [exact Hcopy|].
    destruct (is_closer d); [|exact Hcopy].
    simpl in *. pose proof (IH rest). lia.
Qed.

(** A text that line 61 leaves as it is has no comma followed by white
    space and a closer. *)
Lemma unchanged_has_no_trailing_comma (s : jstring) :
  remove_trailing_commas s = s ->
  forall a ws c b,
    s = a ++ COMMA :: ws ++ c :: b ->
    forallb is_white_space ws = true -> is_closer c = false.
Proof.
  intros Hfix a ws c b Hs Hws.
  destruct (is_closer c) eqn:Hc; [|reflexivity]. exfalso.
  pose proof (SanitizeFacts.remove_trailing_commas_app (length a) a ws c b
                (le_n _) Hws Hc) as E.
  rewrite <- Hs, Hfix in E. apply (f_equal (@length code_unit)) in E.
  rewrite Hs in E. rewrite !length_app in E. simpl in E.
  rewrite !length_app in E. simpl in E.
  pose proof (remove_trailing_commas_length (length a) a (le_n _)).
  pose proof (remove_trailing_commas_length (length b) b (le_n _)).
  lia.
Qed.

(** X7.  A reply that needs no repair passes the clean-up untouched
    apart from the trimming: no backtick, no single quote, and no comma
    that is followed by white space and a closing brace or bracket. *)
Theorem clean_reply_is_only_trimmed :
  forall res : jstring,
    ~ In BACKTICK res ->
    ~ In QUOTE res ->
    (forall a ws c b,
        res = a ++ COMMA :: ws ++ c :: b ->
        forallb is_white_space ws = true -> is_closer c = false) ->
    clean_up res = trim res.
Proof.
  intros res Hback Hquote Hcomma.
  unfold clean_up, strip_fences.
  rewrite <- (app_nil_r res) at 1.
  rewrite (strip_copies_without_backtick res [] Hback), app_nil_r.
  destruct (trim_infix res) as [x [y Hres]].
  assert (Hq : replace_quotes (trim res) = trim res).
  { rewrite SanitizeFacts.replace_quotes_map.
    rewrite <- (map_id (trim res)) at 2. apply map_ext_in.
    intros c Hc. destruct (N.eqb_spec c QUOTE) as [-> | _]; [|reflexivity].
    exfalso. apply Hquote. rewrite Hres.
    apply in_or_app; right; apply in_or_app; left; exact Hc. }
  rewrite Hq. apply remove_trailing_commas_none.
  intros a ws c b Ht. apply (Hcomma (x ++ a) ws c (b ++ y)).
  rewrite Hres at 1. rewrite Ht. rewrite <- !app_assoc. simpl.
  rewrite <- !app_assoc. reflexivity.
Qed.

(** X8.  A code fence around the reply does not change what is
    extracted: the reply between the markers, when it holds no backtick,
    gives the same result with and without them. *)
Theorem fence_around_reply_is_ignored :
  forall (R : Runtime) (inner : jstring),
    ~ In BACKTICK inner ->
    extract_json (js "```json" ++ inner ++ js "```") = extract_json inner.
Proof.
  intros R inner Hn.
  assert (Hstrip : strip_fences (js "```json" ++ inner ++ js "```") = strip_fences inner).
  { unfold strip_fences. f_equal.
    change (js "```json" ++ inner ++ js "```")
      with (BACKTICK :: [BACKTICK; BACKTICK; 106; 115; 111; 110]
            ++ inner ++ [BACKTICK; BACKTICK; BACKTICK]).
    rewrite replace_all_cons.
    change (match_fence (BACKTICK :: [BACKTICK; BACKTICK; 106; 115; 111; 110]
                         ++ inner ++ [BACKTICK; BACKTICK; BACKTICK]))
      with (Some (7%nat, @nil code_unit)).
    cbv beta iota. cbn [app pred skipn].
    rewrite (strip_copies_without_backtick inner _ Hn).
    assert (Hid : replace_all match_fence inner = inner).
    { rewrite <- (app_nil_r inner) at 1.
      rewrite (strip_copies_without_backtick inner [] Hn). apply app_nil_r. }
    rewrite Hid.
    change (replace_all match_fence [BACKTICK; BACKTICK; BACKTICK])
      with (@nil code_unit).
    apply app_nil_r. }
  unfold extract_json, clean_up. rewrite Hstrip. reflexivity.
Qed.

Section OnTheReferenceRuntime.
#[local] Existing Instance Reference.runtime.

Lemma extracted_text_has_no_single_quote_witness :
  ~ In QUOTE (jq "{'a': 'it's'}").
Proof.
  apply (extracted_text_has_no_single_quote Reference.runtime
           (js "Here: {'a': 'it's'}")).
  reflexivity.
Defined.

Lemma prose_around_one_value_is_discarded_witness :
  extract_json (js "Sure! " ++ jq "{'a': [1]}" ++ js " Hope this helps.")
  = inr (jq "{'a': [1]}").
Proof.
  apply (prose_around_one_value_is_discarded Reference.runtime
           (js "Sure! " ++ jq "{'a': [1]}" ++ js " Hope this helps.")
           (js "Sure! ") (jq "'a': [1]") (js " Hope this helps.") LBRACE RBRACE).
  - left. reflexivity.
  - reflexivity.
  - vm_compute. intuition discriminate.
  - vm_compute. intuition discriminate.
  - vm_compute. intuition discriminate.
Defined.

Lemma clean_reply_is_only_trimmed_witness :
  clean_up (js " " ++ jq "{'a': 1, 'b': [2, 3]}" ++ LF)
  = trim (js " " ++ jq "{'a': 1, 'b': [2, 3]}" ++ LF).
Proof.
  apply clean_reply_is_only_trimmed.
  - vm_compute. intuition discriminate.
  - vm_compute. intuition discriminate.
  - apply unchanged_has_no_trailing_comma. reflexivity.
Defined.

Lemma fence_around_reply_is_ignored_witness :
  extract_json (js "```json" ++ (LF ++ jq "{'a': 1}" ++ LF) ++ js "```")
  = extract_json (LF ++ jq "{'a': 1}" ++ LF).
Proof.
  apply fence_around_reply_is_ignored.
  vm_compute. intuition discriminate.
Defined.

End OnTheReferenceRuntime.

End SanitizeBehaviour.

(** * Further properties of the validation *)

Module ValidateBehaviour.
Import StringFacts.

Section Records.
Context {R : Runtime}.
Variable default_category : jstring.

Lemma own_set_same_keys (key : jstring) (v : val) (props : list (jstring * val)) :
  own key props = true -> map fst (own_set key v props) = map fst props.
Proof.
  unfold own. induction props as [|[k x] props IH]; simpl; [discriminate|].
  destruct (eqb k key); simpl; [reflexivity|].
  intros H. rewrite IH by exact H. reflexivity.
Qed.

Lemma set_own (key : jstring) (v : val) (props : list (jstring * val)) :
  own key props = true ->
  set key v (VObj props) = inr (VObj (own_set key v props)).
Proof.
  intros H. unfold set. rewrite H. reflexivity.
Qed.

(** One key of the shape, of a name that no object inherits, leaves the
    keys of a plain object as they are. *)
Lemma validate_key_same_keys (key : jstring) (format : jstring + list jstring)
    (props : list (jstring * val)) (out : val) :
  inherited key = false ->
  validate_key default_category key format (VObj props) = inr out ->
  exists props', out = VObj props' /\ map fst props' = map fst props.
Proof.
  intros Hinh H.
  destruct (has_property key props) eqn:Hhas.
  - assert (Hown : own key props = true).
    { unfold has_property in Hhas. rewrite Hinh, orb_false_r in Hhas. exact Hhas. }
    unfold validate_key in H.
    assert (Ein : key_in key (VObj props) = inr true)
      by (unfold key_in, ret; rewrite Hhas; reflexivity).
    rewrite Ein in H. unfold bind at 1 in H. cbv beta iota in H. cbn [negb] in H.
    destruct format as [description | options].
    + inversion H; subst. exists props. split; reflexivity.
    + assert (Hstep : exists p1,
                 (if Array_isArray (get key (VObj props))
                  then set key (first_element (get key (VObj props))) (VObj props)
                  else ret (VObj props)) = inr (VObj p1) /\
                 own key p1 = true /\ map fst p1 = map fst props).
      { destruct (Array_isArray (get key (VObj props))).
        - rewrite (set_own _ _ _ Hown). eexists. split; [reflexivity|]. split.
          + rewrite ValidateFacts.own_set_own, eqb_refl, orb_true_r. reflexivity.
          + apply own_set_same_keys; exact Hown.
        - exists props. repeat split; auto. }
      destruct Hstep as [p1 [E1 [Hown1 Hkeys1]]].
      match type of H with
      | context [bind ?c _] =>
          let X := fresh in
          assert (X : c = inr (VObj p1)) by exact E1; rewrite X in H; clear X
      end.
      unfold bind in H. cbv beta iota in H.
      destruct (negb (Array_includes options (get key (VObj p1)))
                && negb (eqb default_category [])).
      * rewrite (set_own _ _ _ Hown1) in H. inversion H; subst.
        eexists. split; [reflexivity|].
        rewrite (own_set_same_keys _ _ _ Hown1). exact Hkeys1.
      * inversion H; subst. exists p1. split; [reflexivity | exact Hkeys1].
  - rewrite (ValidateFacts.validate_key_absent default_category key format props Hhas) in H.
    destruct (includes [LT] key); [|discriminate].
    inversion H; subst. exists props. split; reflexivity.
Qed.

Lemma validate_keys_same_keys (format : OutputFormat) :
  forall props out,
    (forall key f, In (key, f) format -> inherited key = false) ->
    validate_keys default_category format (VObj props) = inr out ->
    exists props', out = VObj props' /\ map fst props' = map fst props.
Proof.
  induction format as [|[key f] rest IH]; intros props out Hinh H.
  - inversion H; subst. exists props. split; reflexivity.
  - rewrite ValidateFacts.validate_keys_cons in H.
    destruct (validate_key default_category key f (VObj props)) as [e | item] eqn:E;
      [discriminate|].
    destruct (validate_key_same_keys key f props item (Hinh key f (or_introl eq_refl)) E)
      as [p1 [-> Hk1]].
    destruct (IH p1 out) as [props' [-> Hk]].
    + intros k f' Hin. apply (Hinh k f'). right; exact Hin.
    + exact H.
    + exists props'. split; [reflexivity | congruence].
Qed.

(** A record that conforms passes the loop over the keys untouched. *)
Lemma validate_keys_conforming (format : OutputFormat) (props : list (jstring * val)) :
  (forall key f, In (key, f) format -> own key props = false ->
                 inherited key = false /\ In LT key) ->
  (forall key options v,
      In (key, inr options) format -> own_get key props = Some v ->
      Array_isArray v = false /\
      (Array_includes options v = true \/ default_category = [])) ->
  validate_keys default_category format (VObj props) = inr (VObj props).
Proof.
  induction format as [|[key f] rest IH]; intros Hmissing Henum; [reflexivity|].
  rewrite ValidateFacts.validate_keys_cons.
  assert (E : validate_key default_category key f (VObj props) = inr (VObj props)).
  { destruct (own_get key props) as [v|] eqn:Hv.
    - assert (Hhas : has_property key props = true)
        by (unfold has_property, own; rewrite Hv; reflexivity).
      unfold validate_key.
      assert (Ein : key_in key (VObj props) = inr true)
        by (unfold key_in, ret; rewrite Hhas; reflexivity).
      rewrite Ein. unfold bind at 1. cbv beta iota. cbn [negb].
      destruct f as [description | options]; [reflexivity|].
      destruct (Henum key options v (or_introl eq_refl) Hv) as [Harr Hok].
      assert (Hget : get key (VObj props) = v) by (simpl; rewrite Hv; reflexivity).
      rewrite Hget, Harr. unfold bind, ret. cbv beta iota. rewrite Hget.
      destruct Hok as [Hin | ->].
      + rewrite Hin. reflexivity.
      + rewrite andb_false_r. reflexivity.
    - destruct (Hmissing key f (or_introl eq_refl)) as [Hinh Hlt].
      { unfold own; rewrite Hv; reflexivity. }
      rewrite ValidateFacts.validate_key_absent.
      + apply includes_lt_iff in Hlt. rewrite Hlt. reflexivity.
      + unfold has_property, own. rewrite Hv, Hinh. reflexivity. }
  rewrite E. apply IH.
  - intros k f' Hin. apply (Hmissing k f'). right; exact Hin.
  - intros k options v Hin. apply (Henum k options v). right; exact Hin.
Qed.

(** The loop over the keys stops at the first key, in the order of the
    shape, that the object lacks and that has no [<]; the item of the
    error is the object as the keys before it left it. *)
Lemma validate_keys_first_missing (format : OutputFormat) :
  forall props e,
    validate_keys default_category format (VObj props) = inl e ->
    exists before key f after props',
      format = before ++ (key, f) :: after /\
      e = SchemaValidationError key (VObj props') /\
      validate_keys default_category before (VObj props) = inr (VObj props') /\
      has_property key props = false /\
      ~ In LT key /\
      (forall k f', In (k, f') before -> has_property k props = true \/ In LT k).
Proof.
  induction format as [|[key f] rest IH]; intros props e H; [discriminate|].
  rewrite ValidateFacts.validate_keys_cons in H.
  destruct (has_property key props) eqn:Hhas.
  - destruct (ValidateFacts.validate_key_present default_category key f props Hhas)
      as [p1 [E [H1 _]]].
    rewrite E in H.
    destruct (IH _ _ H)
      as [before [k [f' [after [props' [-> [-> [Hb [Hk [Hlt Hall]]]]]]]]]].
    exists ((key, f) :: before), k, f', after, props'. repeat split; auto.
    + rewrite ValidateFacts.validate_keys_cons, E. exact Hb.
    + rewrite <- H1. exact Hk.
    + intros k0 f0 [Hin | Hin].
      * inversion Hin; subst. left; exact Hhas.
      * destruct (Hall k0 f0 Hin) as [Hp | Hp]; [left; rewrite <- H1; exact Hp | right; exact Hp].
  - rewrite (ValidateFacts.validate_key_absent default_category key f props Hhas) in H.
    destruct (includes [LT] key) eqn:Hlt.
    + destruct (IH _ _ H)
        as [before [k [f' [after [props' [-> [-> [Hb [Hk [Hlt' Hall]]]]]]]]]].
      exists ((key, f) :: before), k, f', after, props'. repeat split; auto.
      * rewrite ValidateFacts.validate_keys_cons.
        rewrite (ValidateFacts.validate_key_absent default_category key f props Hhas).
        rewrite Hlt. exact Hb.
      * intros k0 f0 [Hin | Hin].
        -- inversion Hin; subst. right. apply includes_lt_iff; exact Hlt.
        -- apply (Hall k0 f0 Hin).
    + inversion H; subst.
      exists [], key, f, rest, props. repeat split; auto;
        try (intros Hin; apply includes_lt_iff in Hin; congruence);
        try (intros k0 f0 []).
Qed.
End Records.

Section Outputs.
Context {R : Runtime}.
Variable output_format : OutputFormat.
Variable default_category : jstring.

Lemma validate_item_without_flag (item out : val) :
  validate_item output_format default_category true item = inr out ->
  validate_item output_format default_category false item = inr out.
Proof.
  intros H. apply ValidateFacts.validate_item_keys in H.
  unfold validate_item, bind. rewrite H. reflexivity.
Qed.

Lemma validate_outputs_without_flag (outputs : list val) :
  forall elements,
    validate_outputs output_format default_category true outputs = inr elements ->
    validate_outputs output_format default_category false outputs = inr elements.
Proof.
  induction outputs as [|item rest IH]; intros elements H; [exact H|].
  rewrite ValidateFacts.validate_outputs_cons in *.
  destruct (validate_item output_format default_category true item)
    as [e | element] eqn:E; [discriminate|].
  rewrite (validate_item_without_flag _ _ E).
  destruct (validate_outputs output_format default_category true rest)
    as [e | elements'] eqn:E'; [discriminate|].
  rewrite (IH _ eq_refl). exact H.
Qed.

(** The error of a reply is the error of its first item that fails. *)
Lemma validate_outputs_first_failure (output_value_only : bool) (outputs : list val) :
  forall e,
    validate_outputs output_format default_category output_value_only outputs = inl e ->
    exists before item after,
      outputs = before ++ item :: after /\
      validate_item output_format default_category output_value_only item = inl e /\
      Forall (fun x => exists out,
                  validate_item output_format default_category output_value_only x
                  = inr out) before.
Proof.
  induction outputs as [|item rest IH]; intros e H; [discriminate|].
  rewrite ValidateFacts.validate_outputs_cons in H.
  destruct (validate_item output_format default_category output_value_only item)
    as [e0 | element] eqn:E.
  - inversion H; subst. exists [], item, rest. repeat split; auto.
  - destruct (validate_outputs output_format default_category output_value_only rest)
      as [e1 | elements] eqn:E'; [|discriminate].
    inversion H; subst.
    destruct (IH _ eq_refl) as [before [x [after [-> [Hx Hall]]]]].
    exists (item :: before), x, after. repeat split; auto.
    constructor; [eauto | exact Hall].
Qed.
End Outputs.

(** X9.  A record that already conforms is returned exactly as it was
    parsed, whatever the default category: every key of the shape that
    it has not is a placeholder key, and every field with allowed values
    holds a value that is not a sequence and that is allowed, or no
    default category is configured. *)
Theorem conforming_record_is_returned_unchanged :
  forall (R : Runtime) output_format default_category output_value_only props,
    (forall key f,
        In (key, f) output_format -> own key props = false ->
        inherited key = false /\ In LT key) ->
    (forall key options v,
        In (key, inr options) output_format -> own_get key props = Some v ->
        Array_isArray v = false /\
        (Array_includes options v = true \/ default_category = [])) ->
    validate_item output_format default_category output_value_only (VObj props)
    = inr (VObj props).
Proof.
  intros R output_format default_category output_value_only props Hmissing Henum.
  rewrite ValidateFacts.validate_item_object.
  apply validate_keys_conforming; assumption.
Qed.

(** X10.  When no key of the shape is a name that objects inherit, an
    accepted record has the keys of the parsed record, all of them and
    in the same order: the validation adds no key, not even for a
    placeholder key that the record lacks. *)
Theorem accepted_record_keeps_its_keys :
  forall (R : Runtime) output_format default_category output_value_only
         props element,
    (forall key f, In (key, f) output_format -> inherited key = false) ->
    validate_item output_format default_category output_value_only (VObj props)
    = inr element ->
    exists props', element = VObj props' /\ map fst props' = map fst props.
Proof.
  intros R output_format default_category output_value_only props element Hinh H.
  apply ValidateFacts.validate_item_keys in H.
  apply (validate_keys_same_keys default_category output_format props element Hinh H).
Qed.

(** X11.  The flag [output_value_only] never changes what an attempt
    returns: an attempt that succeeds with the flag set returns the very
    records that it returns without it. *)
Theorem values_only_never_changes_the_records :
  forall (R : Runtime) provider output_format default_category model i prompt outputs,
    attempt provider output_format default_category true model i prompt = inr outputs ->
    attempt provider output_format default_category false model i prompt = inr outputs.
Proof.
  intros R provider output_format default_category model i prompt outputs H.
  destruct (RetryFacts.attempt_returned _ _ _ _ _ _ _ _ H)
    as [text [jsonMatch [parsed [Hp [Hx [Hj Hv]]]]]].
  apply validate_outputs_without_flag in Hv.
  unfold attempt, bind. rewrite Hp. simpl. rewrite Hx, Hj. simpl. exact Hv.
Qed.

(** X12.  The error of a rejected reply is that of its first item that
    fails, the items before it being accepted; and a plain object fails
    at the first key, in the order of the shape, that it lacks and that
    has no [<], the error carrying the object as the keys before that one
    left it. *)
Theorem first_failure_is_the_one_reported :
  forall (R : Runtime) output_format default_category output_value_only,
    (forall outputs e,
        validate_outputs output_format default_category output_value_only outputs
        = inl e ->
        exists before item after,
          outputs = before ++ item :: after /\
          validate_item output_format default_category output_value_only item = inl e /\
          Forall (fun x => exists out,
                      validate_item output_format default_category
                                    output_value_only x = inr out) before) /\
    (forall props e,
        validate_item output_format default_category output_value_only (VObj props)
        = inl e ->
        exists before key f after props',
          output_format = before ++ (key, f) :: after /\
          e = SchemaValidationError key (VObj props') /\
          validate_keys default_category before (VObj props) = inr (VObj props') /\
          has_property key props = false /\
          ~ In LT key /\
          (forall k f', In (k, f') before -> has_property k props = true \/ In LT k)).
Proof.
  intros R output_format default_category output_value_only. split.
  - apply validate_outputs_first_failure.
  - intros props e H. rewrite ValidateFacts.validate_item_object in H.
    apply (validate_keys_first_missing default_category output_format props e H).
Qed.

Section OnTheReferenceRuntime.
#[local] Existing Instance Reference.runtime.

Lemma conforming_record_is_returned_unchanged_witness :
  validate_item
    [(js "question", inl (js "question"));
     (js "difficulty", inr [js "easy"; js "hard"]);
     (js "<topic>", inl (js "a fact"))]
    (js "easy") false
    (VObj [(js "difficulty", VStr (js "hard")); (js "question", VStr (js "Why?"))])
  = inr (VObj [(js "difficulty", VStr (js "hard")); (js "question", VStr (js "Why?"))]).
Proof.
  apply conforming_record_is_returned_unchanged.
  - intros key f [H | [H | [H | []]]] Hown; inversion H; subst;
      try discriminate Hown.
    split; [reflexivity | left; reflexivity].
  - intros key options v [H | [H | [H | []]]] Hv; inversion H; subst.
    simpl in Hv. inversion Hv; subst. split; [reflexivity | left; reflexivity].
Defined.

Lemma accepted_record_keeps_its_keys_witness :
  exists props' : list (jstring * val),
    VObj [(js "difficulty", VStr (js "easy")); (js "note", VNull)] = VObj props' /\
    map fst props' = [js "difficulty"; js "note"].
Proof.
  apply (accepted_record_keeps_its_keys Reference.runtime
           [(js "difficulty", inr [js "easy"; js "hard"]);
            (js "<topic>", inl (js "a fact"))]
           (js "easy") false
           [(js "difficulty", VArr [VStr (js "medium")]); (js "note", VNull)]).
  - intros key f [H | [H | []]]; inversion H; subst; reflexivity.
  - reflexivity.
Defined.

Lemma values_only_never_changes_the_records_witness :
  attempt (Examples.always Examples.paris) Examples.answer_format [] false
          Examples.gemini 0 (js "What is the capital of France?")
  = inr [VObj [(js "answer", VStr (js "Paris"))]].
Proof.
  apply values_only_never_changes_the_records. reflexivity.
Defined.

Lemma first_failure_is_the_one_reported_witness :
  exists before item after,
    [VObj [(js "answer", VStr (js "Paris"))]; VObj []; VObj []]
    = before ++ item :: after /\
    validate_item Examples.answer_format [] false item
    = inl (SchemaValidationError (js "answer") (VObj [])) /\
    Forall (fun x => exists out,
                validate_item Examples.answer_format [] false x = inr out) before.
Proof.
  apply (proj1 (first_failure_is_the_one_reported Reference.runtime
                  Examples.answer_format [] false)).
  reflexivity.
Defined.

End OnTheReferenceRuntime.

End ValidateBehaviour.

(** * Further properties of one attempt and of the prompt *)

Module AttemptBehaviour.
Import StringFacts.

Section Errors.
Context {R : Runtime}.
Variable output_format : OutputFormat.
Variable default_category : jstring.
Variable output_value_only : bool.







End Errors.


(** X14.  A reply that parses to the empty array is a success with no
    record: with at least one try the call returns the empty sequence
    after a single prompt, whatever the shape and the inputs. *)
Theorem empty_array_reply_returns_no_record :
  forall (R : Runtime) provider system_prompt user_prompt output_format
         default_category output_value_only model num_tries text jsonMatch,
    (1 <= num_tries)%Z ->
    provider 0%nat model (build_prompt system_prompt user_prompt output_format [])
    = inr text ->
    extract_json (trim text) = inr jsonMatch ->
    JSON_parse jsonMatch = inr (VArr []) ->
    strict_output provider system_prompt user_prompt output_format
                  default_category output_value_only model num_tries
    = (Returned [], [build_prompt system_prompt user_prompt output_format []]).
Proof.
  intros R provider system_prompt user_prompt output_format default_category
         output_value_only model num_tries text jsonMatch Hn Hp Hx Hj.
  unfold strict_output.
  destruct (Z.to_nat num_tries) as [|n] eqn:E; [lia|].
  apply RetryFacts.attempts_succeeded.
  unfold attempt, bind. rewrite Hp. simpl. rewrite Hx, Hj. reflexivity.
Qed.

Lemma reaches_gt_iff (s : jstring) :
  reaches_gt s = true <->
  exists m b,
    s = m ++ GT :: b /\ forallb (fun c => negb (is_line_terminator c)) m = true.
Proof.
  induction s as [|c s IH]; simpl.
  - split; [discriminate|]. intros [m [b [H _]]]. destruct m; discriminate.
  - rewrite orb_true_iff, andb_true_iff, N.eqb_eq, IH. split.
    + intros [-> | [Hc [m [b [-> Hm]]]]].
      * exists [], s. split; reflexivity.
      * exists (c :: m), b. simpl. rewrite Hc, Hm. split; reflexivity.
    + intros [[|d m] [b [H Hm]]]; simpl in H; inversion H; subst.
      * left; reflexivity.
      * simpl in Hm. apply andb_true_iff in Hm. destruct Hm as [Hd Hm].
        right. split; [exact Hd|]. exists m, b. split; [reflexivity | exact Hm].
Qed.

Lemma has_placeholder_iff (s : jstring) :
  has_placeholder s = true <->
  exists a m b,
    s = a ++ LT :: m ++ GT :: b /\
    forallb (fun c => negb (is_line_terminator c)) m = true.
Proof.
  induction s as [|c s IH]; simpl.
  - split; [discriminate|]. intros [a [m [b [H _]]]]. destruct a; discriminate.
  - rewrite orb_true_iff, andb_true_iff, N.eqb_eq, reaches_gt_iff, IH. split.
    + intros [[-> [m [b [-> Hm]]]] | [a [m [b [-> Hm]]]]].
      * exists [], m, b. split; [reflexivity | exact Hm].
      * exists (c :: a), m, b. split; [reflexivity | exact Hm].
    + intros [[|d a] [m [b [H Hm]]]]; simpl in H; inversion H; subst.
      * left. split; [reflexivity|]. exists m, b. split; [reflexivity | exact Hm].
      * right. exists a, m, b. split; [reflexivity | exact Hm].
Qed.

(** X4.  The shape counts as holding placeholders exactly when its JSON
    text has a [<] followed by a [>] with no line break between them,
    and then every prompt of the call carries the instruction to replace
    them. *)
Theorem placeholders_are_announced_in_every_prompt :
  forall (R : Runtime) provider system_prompt user_prompt output_format
         default_category output_value_only model num_tries,
    (dynamic_elements output_format = true <->
     exists a m b,
       JSON_stringify (format_value output_format) = a ++ LT :: m ++ GT :: b /\
       forallb (fun c => negb (is_line_terminator c)) m = true) /\
    (dynamic_elements output_format = true ->
     forall p,
       In p (snd (strict_output provider system_prompt user_prompt output_format
                    default_category output_value_only model num_tries)) ->
       includes (js "Any key or value wrapped in <...> must be replaced dynamically with contextually accurate content.")
                p = true).
Proof.
  intros R provider system_prompt user_prompt output_format default_category
         output_value_only model num_tries.
  split; [apply has_placeholder_iff|].
  intros Hdyn p Hin. unfold strict_output in Hin.
  destruct (RetryBehaviour.attempts_prompt_shape _ _ _ _ _ _ _ _ _ _ _ Hin)
    as [msg ->].
  apply includes_iff. unfold build_prompt, format_instructions. rewrite Hdyn.
  eexists (system_prompt ++ LF ++ LF
           ++ js "ONLY return a valid JSON object following this shape: "
           ++ JSON_stringify (format_value output_format)
           ++ js "." ++ LF ++ js "Do not wrap the JSON inside code blocks."
           ++ LF ++ js "Do not use single quotes."
           ++ LF ++ js "Avoid trailing commas."
           ++ LF ++ js "Return ONLY raw valid JSON with NO explanations, NO markdown, and NO comments."
           ++ LF
           ++ (if list_input user_prompt
               then LF ++ js "Return an array of JSON objects " ++ EN_DASH
                    ++ js " one for each user input."
               else [])
           ++ LF), _.
  rewrite <- !app_assoc. reflexivity.
Qed.

Section OnTheReferenceRuntime.
#[local] Existing Instance Reference.runtime.


Lemma empty_array_reply_returns_no_record_witness :
  strict_output (Examples.always (js "[]")) Examples.quiz_master
                (inr [js "France"; js "Spain"]) Examples.quiz_format [] false
                Examples.gemini 3
  = (Returned [],
     [build_prompt Examples.quiz_master (inr [js "France"; js "Spain"])
        Examples.quiz_format []]).
Proof.
  apply (empty_array_reply_returns_no_record Reference.runtime
           (Examples.always (js "[]")) Examples.quiz_master
           (inr [js "France"; js "Spain"]) Examples.quiz_format [] false
           Examples.gemini 3 (js "[]") (js "[]")).
  - lia.
  - reflexivity.
  - reflexivity.
  - reflexivity.
Defined.

Lemma placeholders_are_announced_in_every_prompt_witness :
  includes (js "Any key or value wrapped in <...> must be replaced dynamically with contextually accurate content.")
           (build_prompt Examples.quiz_master (inl (js "France"))
              [(js "<topic>", inl (js "a fact about the topic"))] []) = true.
Proof.
  apply (proj2 (placeholders_are_announced_in_every_prompt Reference.runtime
                  (Examples.always Examples.paris) Examples.quiz_master
                  (inl (js "France"))
                  [(js "<topic>", inl (js "a fact about the topic"))]
                  [] false Examples.gemini 1)).
  - reflexivity.
  - left. reflexivity.
Defined.

End OnTheReferenceRuntime.

End AttemptBehaviour.
